(** * matcha: target resolution and the bind pipeline of [cmd/bind.go]

    A shallow embedding of [ParseTargets] and [Bind].  Go strings are byte
    strings ([string]), the target set [map[string]struct{}] is a finite set
    of strings ([gset string]), and the collaborators of [Bind] that live in
    other files of the package are calls answered by an arbitrary stateful
    environment. *)

From Stdlib Require Import ZArith Ascii.
From stdpp Require Import gmap strings list.

Local Open Scope string_scope.
Local Open Scope list_scope.

(** ** Go strings: runes and [strings.Fields] *)

Module GoStrings.

Definition byteZ (c : ascii) : Z := Z.of_N (Ascii.N_of_ascii c).

Definition RuneError : Z := 0xFFFD.

Definition inRange (lo hi b : Z) : bool := (lo <=? b)%Z && (b <=? hi)%Z.

Definition isCont (b : Z) : bool := inRange 0x80 0xBF b.

Definition contBits (b : Z) : Z := Z.land b 0x3F.

(** [utf8.DecodeRuneInString]: the first rune of [s] and its width in bytes;
    a malformed or truncated encoding decodes to [RuneError] of width 1. *)
Definition DecodeRuneInString (s : string) : Z * nat :=
  match s with
  | EmptyString => (RuneError, 0%nat)
  | String c0 r0 =>
    let b0 := byteZ c0 in
    if (b0 <? 0x80)%Z then (b0, 1%nat)
    else if inRange 0xC2 0xDF b0 then
      match r0 with
      | String c1 _ =>
        let b1 := byteZ c1 in
        if isCont b1
        then (Z.lor (Z.shiftl (Z.land b0 0x1F) 6) (contBits b1), 2%nat)
        else (RuneError, 1%nat)
      | _ => (RuneError, 1%nat)
      end
    else if inRange 0xE0 0xEF b0 then
      match r0 with
      | String c1 (String c2 _) =>
        let b1 := byteZ c1 in
        let b2 := byteZ c2 in
        let lo := if (b0 =? 0xE0)%Z then 0xA0%Z else 0x80%Z in
        let hi := if (b0 =? 0xED)%Z then 0x9F%Z else 0xBF%Z in
        if inRange lo hi b1 && isCont b2
        then (Z.lor (Z.shiftl (Z.land b0 0x0F) 12)
                (Z.lor (Z.shiftl (contBits b1) 6) (contBits b2)), 3%nat)
        else (RuneError, 1%nat)
      | _ => (RuneError, 1%nat)
      end
    else if inRange 0xF0 0xF4 b0 then
      match r0 with
      | String c1 (String c2 (String c3 _)) =>
        let b1 := byteZ c1 in
        let b2 := byteZ c2 in
        let b3 := byteZ c3 in
        let lo := if (b0 =? 0xF0)%Z then 0x90%Z else 0x80%Z in
        let hi := if (b0 =? 0xF4)%Z then 0x8F%Z else 0xBF%Z in
        if inRange lo hi b1 && isCont b2 && isCont b3
        then (Z.lor (Z.shiftl (Z.land b0 0x07) 18)
                (Z.lor (Z.shiftl (contBits b1) 12)
                   (Z.lor (Z.shiftl (contBits b2) 6) (contBits b3))), 4%nat)
        else (RuneError, 1%nat)
      | _ => (RuneError, 1%nat)
      end
    else (RuneError, 1%nat)
  end.

(** [unicode.IsSpace]: the Latin-1 spaces, then the White_Space property. *)
Definition IsSpace (r : Z) : bool :=
  if (r <=? 0xFF)%Z then
    inRange 0x09 0x0D r || (r =? 0x20)%Z || (r =? 0x85)%Z || (r =? 0xA0)%Z
  else
    (r =? 0x1680)%Z || inRange 0x2000 0x200A r || inRange 0x2028 0x2029 r
    || (r =? 0x202F)%Z || (r =? 0x205F)%Z || (r =? 0x3000)%Z.

Definition flush (cur : string) : list string :=
  match cur with EmptyString => [] | _ => [cur] end.

Definition snoc (cur : string) (c : ascii) : string :=
  cur +:+ String c EmptyString.

(** The loop of [strings.FieldsFunc(s, unicode.IsSpace)], one byte at a time:
    [skip] counts the bytes left of the rune being crossed, and [cur] is the
    field being built (empty between fields, so the trailing bytes of a space
    rune find it empty and are dropped). *)
Fixpoint fieldsLoop (s : string) (skip : nat) (cur : string) : list string :=
  match s with
  | EmptyString => flush cur
  | String c rest =>
    match skip with
    | S k =>
      fieldsLoop rest k (match cur with EmptyString => cur | _ => snoc cur c end)
    | O =>
      let '(r, w) := DecodeRuneInString s in
      if IsSpace r
      then flush cur ++ fieldsLoop rest (Nat.pred w) EmptyString
      else fieldsLoop rest (Nat.pred w) (snoc cur c)
    end
  end.

(** [strings.Fields]. *)
Definition Fields (s : string) : list string := fieldsLoop s 0 EmptyString.

End GoStrings.

Import GoStrings.

(** ** [ParseTargets] *)

(** [targets[k] = struct{}{}] on a [map[string]struct{}]. *)
Definition setKey (k : string) (targets : gset string) : gset string :=
  {[k]} ∪ targets.

(** One iteration of the [switch] over a token. *)
Definition addTarget (targets : gset string) (i : string) : gset string :=
  if decide (i = "android") then
    setKey "android/amd64" (setKey "android/386" (setKey "android/arm64"
      (setKey "android/arm" (setKey "android" targets))))
  else if decide (i ∈ ["android/arm"; "android/arm64"; "android/386"; "android/amd64"]) then
    setKey i (setKey "android" targets)
  else if decide (i = "ios") then
    setKey "ios/amd64" (setKey "ios/386" (setKey "ios/arm64"
      (setKey "ios/arm" (setKey "ios" targets))))
  else if decide (i ∈ ["ios/arm"; "ios/arm64"; "ios/386"; "ios/amd64"]) then
    setKey i (setKey "ios" targets)
  else targets.

(** The token slice the loop ranges over: the fields of the input, or the two
    bare platforms when there is none. *)
Definition targetsSlice (a : string) : list string :=
  match Fields a with
  | [] => ["android"; "ios"]
  | fs => fs
  end.

Definition ParseTargets (a : string) : gset string :=
  foldl addTarget ∅ (targetsSlice a).

(** ** The vocabulary of targets, as the specification describes it *)

Inductive platform := Android | IOS.
Inductive architecture := Arm | Arm64 | X386 | Amd64.

Inductive token :=
| Bare (p : platform)
| Qualified (p : platform) (a : architecture).

Definition platformName (p : platform) : string :=
  match p with Android => "android" | IOS => "ios" end.

Definition archName (a : architecture) : string :=
  match a with Arm => "arm" | Arm64 => "arm64" | X386 => "386" | Amd64 => "amd64" end.

Definition qualifiedName (p : platform) (a : architecture) : string :=
  platformName p +:+ "/" +:+ archName a.

Definition tokenName (t : token) : string :=
  match t with
  | Bare p => platformName p
  | Qualified p a => qualifiedName p a
  end.

Definition allPlatforms : list platform := [Android; IOS].
Definition allArchs : list architecture := [Arm; Arm64; X386; Amd64].

Definition allTokens : list token :=
  p ← allPlatforms; Bare p :: (Qualified p <$> allArchs).

(** What one token stands for: a bare platform is its marker and every
    architecture of it, a qualified token its marker and that architecture. *)
Definition expansion (t : token) : gset string :=
  match t with
  | Bare p => {[platformName p]} ∪ list_to_set (qualifiedName p <$> allArchs)
  | Qualified p a => {[platformName p; qualifiedName p a]}
  end.

Definition isKnown (i : string) : bool :=
  bool_decide (i ∈ tokenName <$> allTokens).

(** The ten names a target set can hold. *)
Definition universe : gset string :=
  {[ "android"; "android/arm"; "android/arm64"; "android/386"; "android/amd64";
     "ios"; "ios/arm"; "ios/arm64"; "ios/386"; "ios/amd64" ]}.

(** The token a string names, if any. *)
Definition tokenOf (i : string) : option token :=
  head (filter (λ t, tokenName t = i) allTokens).

(** ** The data of [Bind] *)

(** A Go [error] is modelled by its message; [nil] is [None]. *)
Definition error := string.

(** The [(value, err)] pair of a fallible call, of which one side matters. *)
Inductive Result (A : Type) :=
| Ok (a : A)
| Err (e : error).
Arguments Ok {A} a.
Arguments Err {A} e.

(** The fields of [Flags] that [Bind] reads. *)
Record Flags := {
  BuildTargets : string;
  BuildWork : bool;
  BuildBinary : bool;
  BuildO : string
}.

(** [build.Context], as far as [Bind] sets it up. *)
Record Context := {
  GOARCH : string;
  GOOS : string;
  BuildTags : list string
}.

(** [build.Package], as far as [Bind] looks into it. *)
Record Package := {
  Name : string;
  ImportComment : string;
  Imports : list string;
  Dir : string
}.

(** [os.FileInfo]: [IsDir()] and [Name()]. *)
Record FileInfo := {
  IsDir : bool;
  FileName : string
}.

(** [exec.Cmd]: the argument vector, program name first. *)
Record Cmd := { Args : list string }.

Definition Command (name : string) (args : list string) : Cmd :=
  {| Args := name :: args |}.

(** The local [archPath] struct: what a build goroutine sends back. *)
Record archPath := {
  arch : string;
  path : string;
  err : option error
}.

(** What [WriteFile] did with the generator it was given: whether it ran it,
    and the error it returned. *)
Record WriteFileReply := {
  invoked : bool;
  result : option error
}.

(** The collaborators: functions of the package defined in other files, and
    the operating-system calls.  A call is indexed by the type of its answer.
    [WriteFile] receives its generator as the text the generator would write,
    [None] standing for a generator whose evaluation panics.  [Schedule n] is
    the run-time's choice of the sender, among [n] pending ones, whose
    message a receive obtains; [Preempt n] is its choice, with [n]
    goroutines alive, between letting [Bind] go on and letting one of them
    make its next call. *)
Inductive call : Type → Type :=
| NewTmpDir (flags : Flags) (dir : string) : call (Result string)
| RemoveAll (flags : Flags) (dir : string) : call (option error)
| GoMobilePath : call (Result string)
| ReadFile (flags : Flags) (file : string) : call (Result string)
| GoVersion (flags : Flags) : call (Result string)
| OsGetwd : call (Result string)
| OsGetenv (key : string) : call string
| ImportAll (ctx : Context) (importPaths : list string) (srcDir : string)
    : call (Result (list Package))
| PackageDir (flags : Flags) (pkg : string) : call (Result string)
| Mkdir (flags : Flags) (dir : string) : call (option error)
| WriteFile (flags : Flags) (file : string) (generate : option string)
    : call WriteFileReply
| ReadDir (dir : string) : call (Result (list FileInfo))
| CopyDirContents (flags : Flags) (dst src : string) : call (option error)
| CopyFile (flags : Flags) (dst src : string) : call (option error)
| CopyDir (flags : Flags) (dst src : string) : call (option error)
| DarwinArmEnv (flags : Flags) : call (Result (list string))
| DarwinArm64Env (flags : Flags) : call (Result (list string))
| Darwin386Env (flags : Flags) : call (Result (list string))
| DarwinAmd64Env (flags : Flags) : call (Result (list string))
| GoBuild (flags : Flags) (src : string) (env : list string) (ctx : Context)
    (tmpdir : string) (args : list string) : call (option error)
| RunCmd (flags : Flags) (tmpdir : string) (cmd : Cmd) : call (option error)
| GetAndroidEnv (gomobpath : string) : call (Result (gmap string (list string)))
| BuildAAR (flags : Flags) (androidDir : string) (pkgs : list Package)
    (androidArchs : list string) (tmpdir aarPath : string) : call (option error)
| Schedule (pending : nat) : call nat
| Preempt (alive : nat) : call nat.

(** Who runs a call: [Bind] itself, or the goroutine started for an
    environment. *)
Inductive thread :=
| Main
| Goroutine (env : list string).

(** What a run leaves behind, in order. *)
Inductive event :=
| Called {R : Type} (who : thread) (c : call R)
| Go (env : list string)
| Recv (msg : archPath).

(** A call together with the answer it got. *)
Inductive reply :=
| Reply {R : Type} (who : thread) (c : call R) (r : R).

(** How the body of a Go function stops: it falls through with a value,
    executes [return err], or panics. *)
Inductive completion (A : Type) :=
| Val (a : A)
| Return (e : option error)
| Panic (msg : string).
Arguments Val {A} a.
Arguments Return {A} e.
Arguments Panic {A} msg.

(** *** Readings of events *)

Definition recvd (ev : event) : option archPath :=
  match ev with Recv msg => Some msg | _ => None end.

Definition failedRecv (ev : event) : option error :=
  match ev with Recv msg => err msg | _ => None end.

Definition spawned (ev : event) : option (list string) :=
  match ev with Go env => Some env | _ => None end.

Definition ranCmd (ev : event) : option Cmd :=
  match ev with
  | Called _ c => match c with RunCmd _ _ cmd => Some cmd | _ => None end
  | _ => None
  end.

Definition removed (ev : event) : option string :=
  match ev with
  | Called _ c => match c with RemoveAll _ dir => Some dir | _ => None end
  | _ => None
  end.

Definition copiedFile (ev : event) : option (string * string) :=
  match ev with
  | Called _ c => match c with CopyFile _ dst src => Some (dst, src) | _ => None end
  | _ => None
  end.

Definition copiedDir (ev : event) : option (string * string) :=
  match ev with
  | Called _ c => match c with CopyDir _ dst src => Some (dst, src) | _ => None end
  | _ => None
  end.

(** The thread and the [-o]-less description of a compiler invocation. *)
Definition built (ev : event) : option (thread * list string) :=
  match ev with
  | Called who c =>
    match c with GoBuild _ _ env _ _ _ => Some (who, env) | _ => None end
  | _ => None
  end.

(** The environment of a compiler invocation made by [Bind] itself. *)
Definition builtByMain (ev : event) : option (list string) :=
  match built ev with
  | Some (Main, env) => Some env
  | _ => None
  end.

(** The packages and architectures handed to [BuildAAR], if the event is
    one. *)
Definition packaged (ev : event) : option (list Package * list string) :=
  match ev with
  | Called _ c =>
    match c with BuildAAR _ _ pkgs archs _ _ => Some (pkgs, archs) | _ => None end
  | _ => None
  end.

(** The target key whose environment is looked up, if the event is one of
    the four look-ups of lines 209-237. *)
Definition darwinKey (ev : event) : option string :=
  match ev with
  | Called _ c =>
    match c with
    | DarwinArmEnv _ => Some "ios/arm"
    | DarwinArm64Env _ => Some "ios/arm64"
    | Darwin386Env _ => Some "ios/386"
    | DarwinAmd64Env _ => Some "ios/amd64"
    | _ => None
    end
  | _ => None
  end.

(** The environment such a look-up answered, if it answered one. *)
Definition darwinEnv (x : reply) : option (list string) :=
  match x with
  | Reply _ c r =>
    match c in call R return R → option (list string) with
    | DarwinArmEnv _ | DarwinArm64Env _ | Darwin386Env _ | DarwinAmd64Env _ =>
      λ r, match r with Ok env => Some env | Err _ => None end
    | _ => λ _, None
    end r
  end.

(** Whether the event is one of the look-ups of the preliminary checks
    (lines 74-141).  They make, copy, compile and run nothing. *)
Definition looksUp (ev : event) : bool :=
  match ev with
  | Called Main c =>
    match c with
    | GoMobilePath | ReadFile _ _ | GoVersion _ | OsGetwd | ImportAll _ _ _
    | PackageDir _ _ => true
    | _ => false
    end
  | _ => false
  end.

(** The text handed to [WriteFile], if the event is one. *)
Definition generated (ev : event) : option (option string) :=
  match ev with
  | Called _ c => match c with WriteFile _ _ g => Some g | _ => None end
  | _ => None
  end.

(** Whether the event works towards an output: a directory or file made or
    copied, a goroutine started, a compiler, tool or packager run.  Look-ups,
    and the creation and removal of the working directory, do not. *)
Definition produces (ev : event) : bool :=
  match ev with
  | Called _ c =>
    match c with
    | Mkdir _ _ | WriteFile _ _ _ | CopyDirContents _ _ _ | CopyFile _ _ _
    | CopyDir _ _ _ | GoBuild _ _ _ _ _ _ | RunCmd _ _ _
    | BuildAAR _ _ _ _ _ _ => true
    | _ => false
    end
  | Go _ => true
  | Recv _ => false
  end.

(** ** The effects of [Bind] *)

(** The environment [Bind] runs in: the outside world, with its state and
    its answer to every call, and the pure helpers of the package and of the
    Go library that are defined elsewhere. *)
Class Env := {
  W : Type;
  oracle : ∀ R, call R → W → R * W;
  ShouldRun : Flags → bool;
  Getenv : list string → string → string;
  ArchClang : string → string;
  GetAndroidABI : string → string;
  filepath_Join : list string → string;
  filepath_Dir : string → string;
  path_Clean : string → string;
  ListSeparator : string;
  buildDefault : Context
}.

Section Bind.

Context `{E : !Env}.

(** The outcome of running a piece of [Bind] from a world: how it stopped,
    the world it left, and the events it produced. *)
Record run (A : Type) := Run {
  res : completion A;
  final : W;
  events : list event
}.
Arguments Run {A} res final events.
Arguments res {A} r.
Arguments final {A} r.
Arguments events {A} r.

Definition M (A : Type) : Type := W → run A.

Definition ret {A} (a : A) : M A := λ w, Run (Val a) w [].

Definition bind {A B} (m : M A) (k : A → M B) : M B := λ w,
  let r := m w in
  match res r with
  | Val a =>
    let r' := k a (final r) in
    Run (res r') (final r') (events r ++ events r')
  | Return e => Run (Return e) (final r) (events r)
  | Panic msg => Run (Panic msg) (final r) (events r)
  end.

#[export] Instance M_ret : MRet M := @ret.
#[export] Instance M_bind : MBind M := λ A B k m, bind m k.

(** [return err] and [return nil]. *)
Definition returns {A} (e : option error) : M A := λ w, Run (Return e) w [].

Definition panic {A} (msg : string) : M A := λ w, Run (Panic msg) w [].

Definition emit (ev : event) : M unit := λ w, Run (Val tt) w [ev].

Definition invoke {R} (who : thread) (c : call R) : M R := λ w,
  let '(r, w') := oracle R c w in Run (Val r) w' [Called who c].

(** The world in which a trace that started in [w] ends: every call of the
    trace is put to the world in turn. *)
Fixpoint replay (w : W) (evs : list event) : W :=
  match evs with
  | [] => w
  | Called _ c :: evs' => replay (oracle _ c w).2 evs'
  | _ :: evs' => replay w evs'
  end.

(** The calls of a trace that started in [w], each with the answer it
    got. *)
Fixpoint replies (w : W) (evs : list event) : list reply :=
  match evs with
  | [] => []
  | Called who c :: evs' =>
    Reply who c (oracle _ c w).1 :: replies (oracle _ c w).2 evs'
  | _ :: evs' => replies w evs'
  end.

(** [x, err := f(); if err != nil { return err }]. *)
Definition try {A} (m : M (Result A)) : M A :=
  r ← m; match r with Ok a => mret a | Err e => returns (Some e) end.

(** [if err := f(); err != nil { return err }]. *)
Definition check (m : M (option error)) : M unit :=
  r ← m; match r with None => mret tt | Some e => returns (Some e) end.

(** [defer d] in front of [body]: [d] runs when [body] stops, however it
    does, and its own result is dropped. *)
Definition defer {A} (d : M (option error)) (body : M A) : M A := λ w,
  let r := body w in
  let r' := d (final r) in
  Run (res r) (final r') (events r ++ events r').

(** *** The generated main package *)

Definition dq : string := String (ascii_of_nat 34) EmptyString.
Definition nl : string := String (ascii_of_nat 10) EmptyString.
Definition tab : string := String (ascii_of_nat 9) EmptyString.

(** [fmt.Sprintf(BindFile, pkg)]. *)
Definition BindFile (pkg : string) : string :=
  nl +:+ "package main" +:+ nl +:+ nl
  +:+ "import (" +:+ nl
  +:+ tab +:+ "_ " +:+ dq +:+ "golang.org/x/mobile/bind/java" +:+ dq +:+ nl
  +:+ "    _ " +:+ dq +:+ "gomatcha.io/matcha/bridge" +:+ dq +:+ nl
  +:+ "    _ " +:+ dq +:+ pkg +:+ dq +:+ nl
  +:+ ")" +:+ nl +:+ nl
  +:+ "import " +:+ dq +:+ "C" +:+ dq +:+ nl +:+ nl
  +:+ "func main() {}" +:+ nl.

(** [WriteFile(flags, mainPath, func(w io.Writer) error {...})]: the
    generator formats [BindFile] with [args[0]], which panics on an empty
    slice, and writes the text. *)
Definition writeMain (flags : Flags) (mainPath : string) (args : list string)
  : M (option error) :=
  let generate := match args with [] => None | a0 :: _ => Some (BindFile a0) end in
  r ← invoke Main (WriteFile flags mainPath generate);
  if invoked r then
    match generate with
    | None => panic "runtime error: index out of range [0] with length 0"
    | Some _ => mret (result r)
    end
  else mret (result r).

(** *** The prelude: toolchain check and package import *)

Definition importPathsOf (args : list string) : list string :=
  match args with
  | [] => [] ++ ["."]
  | _ => foldl (λ importPaths i, importPaths ++ [path_Clean i]) [] args
  end.

Definition iosContext : Context :=
  {| GOARCH := "arm"; GOOS := "darwin";
     BuildTags := (BuildTags buildDefault ++ ["ios"]) ++ ["matcha"] |}.

Definition androidContext : Context :=
  {| GOARCH := "arm"; GOOS := "android";
     BuildTags := BuildTags buildDefault ++ ["matcha"] |}.

(** [for _, pkg := range pkgs { if pkg.Name == "main" { return ... } }]. *)
Fixpoint rejectMain (pkgs : list Package) : M unit :=
  match pkgs with
  | [] => mret tt
  | pkg :: pkgs' =>
    if decide (Name pkg = "main")
    then returns (Some ("binding 'main' package (" +:+ ImportComment pkg
                          +:+ ") is not supported"))
    else rejectMain pkgs'
  end.

Definition outputDirOf (flags : Flags) : string :=
  if decide (BuildO flags = "") then "Matcha-iOS" else BuildO flags.

(** *** iOS *)

(** The inner loop over the entries of a package directory. *)
Fixpoint copyIosEntries (flags : Flags) (pkg : Package) (workOutputDir : string)
    (files : list FileInfo) : M unit :=
  match files with
  | [] => mret tt
  | i :: files' =>
    (if IsDir i && bool_decide (FileName i = "ios")
     then _ ← invoke Main (CopyDirContents flags (filepath_Join [workOutputDir])
                             (filepath_Join [Dir pkg; "ios"]));
          mret tt
     else mret tt);;
    copyIosEntries flags pkg workOutputDir files'
  end.

(** Copy a package's [ios] directory if it imports [gomatcha.io/bridge]. *)
Fixpoint copyIosDirs (flags : Flags) (workOutputDir : string)
    (pkgs : list Package) : M unit :=
  match pkgs with
  | [] => mret tt
  | pkg :: pkgs' =>
    (if bool_decide ("gomatcha.io/bridge" ∈ Imports pkg) then
       r ← invoke Main (ReadDir (Dir pkg));
       match r with
       | Err _ => mret tt
       | Ok files => copyIosEntries flags pkg workOutputDir files
       end
     else mret tt);;
    copyIosDirs flags workOutputDir pkgs'
  end.

(** [if _, ok := targets[key]; ok { env, err := mk(flags); ...; envs =
    append(envs, env) }]. *)
Definition addEnv (targets : gset string) (key : string)
    (mk : call (Result (list string))) (envs : list (list string))
  : M (list (list string)) :=
  if decide (key ∈ targets) then
    env ← try (invoke Main mk); mret (envs ++ [env])
  else mret envs.

Definition iosEnvs (flags : Flags) (targets : gset string)
  : M (list (list string)) :=
  envs ← addEnv targets "ios/arm" (DarwinArmEnv flags) [];
  envs ← addEnv targets "ios/arm64" (DarwinArm64Env flags) envs;
  envs ← addEnv targets "ios/386" (Darwin386Env flags) envs;
  addEnv targets "ios/amd64" (DarwinAmd64Env flags) envs.

(** *** The build goroutines

    The goroutines of lines 245-253 run on their own from the moment they
    are started: the scheduler decides when each makes its two calls,
    [os.Getenv] (line 248) and [GoBuild] (line 250), whatever [Bind] is
    doing.  A goroutine past [GoBuild] waits at the send of line 251 until
    [Bind] receives from it; one from which [Bind] never receives stays
    behind.  The events of a run end with the last thing [Bind] does: what
    the goroutines left behind do after that is not part of them. *)

(** A goroutine, as far as it has come: just started, past [os.Getenv], or
    past [GoBuild] with its message ready. *)
Inductive goroutine :=
| Started (env : list string)
| Fetched (env : list string) (gopath : string)
| Sending (env : list string) (msg : archPath).

Definition envOf (g : goroutine) : list string :=
  match g with Started env | Fetched env _ | Sending env _ => env end.

(** Lines 247-251, once [os.Getenv] has answered: the compiler invocation
    and the message made of its outcome. *)
Definition buildArchive (flags : Flags) (mainPath tempdir gopathDir : string)
    (env : list string) (gopath : string) : M archPath :=
  let arch := Getenv env "GOARCH" in
  let env' := env ++ ["GOPATH=" +:+ gopathDir +:+ ListSeparator +:+ gopath] in
  let path := filepath_Join [tempdir; "matcha-" +:+ arch +:+ ".a"] in
  err ← invoke (Goroutine env)
          (GoBuild flags mainPath env' iosContext tempdir
             ["-buildmode=c-archive"; "-o"; path]);
  mret {| arch := arch; path := path; err := err |}.

(** The next call of a goroutine; one that waits at its send makes none. *)
Definition step (flags : Flags) (mainPath tempdir gopathDir : string)
    (g : goroutine) : M goroutine :=
  match g with
  | Started env =>
    gopath ← invoke (Goroutine env) (OsGetenv "GOPATH"); mret (Fetched env gopath)
  | Fetched env gopath =>
    msg ← buildArchive flags mainPath tempdir gopathDir env gopath;
    mret (Sending env msg)
  | Sending _ _ => mret g
  end.

(** What is left of a goroutine's body, up to its send. *)
Definition finish (flags : Flags) (mainPath tempdir gopathDir : string)
    (g : goroutine) : M archPath :=
  match g with
  | Started env =>
    gopath ← invoke (Goroutine env) (OsGetenv "GOPATH");
    buildArchive flags mainPath tempdir gopathDir env gopath
  | Fetched env gopath => buildArchive flags mainPath tempdir gopathDir env gopath
  | Sending _ msg => mret msg
  end.

(** The goroutines from which [Bind] has not received, in the order of their
    start. *)
Definition pool := list goroutine.

(** The calls a goroutine has yet to make. *)
Definition todo (g : goroutine) : nat :=
  match g with Started _ => 2 | Fetched _ _ => 1 | Sending _ _ => 0 end.

Definition backlog (p : pool) : nat := sum_list (todo <$> p).

(** Between two statements of [Bind] the goroutines go on as the scheduler
    lets them: asked with [Preempt], it answers [0] to let [Bind] go on and
    [S i] to let goroutine [i mod n] make its next call first.  [fuel]
    counts the calls the goroutines have yet to make. *)
Fixpoint yield (flags : Flags) (mainPath tempdir gopathDir : string)
    (fuel : nat) (p : pool) : M pool :=
  match fuel with
  | O => mret p
  | S fuel' =>
    c ← invoke Main (Preempt (length p));
    match c with
    | O => mret p
    | S i =>
      let k := i `mod` length p in
      match p !! k with
      | None => mret p
      | Some g =>
        g' ← step flags mainPath tempdir gopathDir g;
        yield flags mainPath tempdir gopathDir fuel' (<[k := g']> p)
      end
    end
  end.

Definition meanwhile (flags : Flags) (mainPath tempdir gopathDir : string)
    (p : pool) : M pool :=
  yield flags mainPath tempdir gopathDir (backlog p) p.

(** [for _, i := range envs { go func(env []string) {...}(i) }]: a goroutine
    may run as soon as it is started, before the next one is. *)
Fixpoint dispatch (flags : Flags) (mainPath tempdir gopathDir : string)
    (p : pool) (envs : list (list string)) : M pool :=
  match envs with
  | [] => mret p
  | i :: envs' =>
    emit (Go i);;
    p' ← meanwhile flags mainPath tempdir gopathDir (p ++ [Started i]);
    dispatch flags mainPath tempdir gopathDir p' envs'
  end.

(** [<-archChan]: [Bind] waits until the goroutine the run-time picks has
    reached its send, and takes its message.  A receive with no goroutine
    left would block for ever. *)
Definition receive (flags : Flags) (mainPath tempdir gopathDir : string)
    (p : pool) : M (archPath * pool) :=
  k ← invoke Main (Schedule (length p));
  let k := k `mod` length p in
  match p !! k with
  | None => panic "all goroutines are asleep - deadlock!"
  | Some g =>
    msg ← finish flags mainPath tempdir gopathDir g;
    emit (Recv msg);;
    mret (msg, delete k p)
  end.

(** [for i := 0; i < len(envs); i++ { arch := <-archChan; ... }]: after
    each receive the other goroutines go on, also when [Bind] is about to
    return the error it received. *)
Fixpoint collect (flags : Flags) (mainPath tempdir gopathDir : string)
    (n : nat) (p : pool) (archs : list archPath) : M (list archPath) :=
  match n with
  | O => mret archs
  | S n' =>
    '(a, p) ← receive flags mainPath tempdir gopathDir p;
    p ← meanwhile flags mainPath tempdir gopathDir p;
    match err a with
    | Some e => returns (Some e)
    | None => collect flags mainPath tempdir gopathDir n' p (archs ++ [a])
    end
  end.

(** The [lipo] command line built from the collected results. *)
Definition lipoCommand (binaryPath : string) (archs : list archPath) : Cmd :=
  let cmd := Command "xcrun" ["lipo"; "-create"] in
  let cmd :=
    foldl (λ cmd i, {| Args := Args cmd ++ ["-arch"; ArchClang (arch i); path i] |})
          cmd archs in
  {| Args := Args cmd ++ ["-o"; binaryPath] |}.

Definition binaryPathOf (tempdir : string) : string :=
  filepath_Join [filepath_Join [tempdir; "matcha-ios"];
                 "MatchaBridge"; "MatchaBridge"; "MatchaBridge.a"].

(** From the fan-out to the end of the iOS block. *)
Definition iosBuild (flags : Flags) (tempdir mainPath : string)
    (envs : list (list string)) : M unit :=
  let gopathDir := filepath_Join [tempdir; "IOS-GOPATH"] in
  let workOutputDir := filepath_Join [tempdir; "matcha-ios"] in
  let binaryPath := binaryPathOf tempdir in
  archChan ← dispatch flags mainPath tempdir gopathDir [] envs;
  archs ← collect flags mainPath tempdir gopathDir (length envs) archChan [];
  check (invoke Main (RunCmd flags tempdir (lipoCommand binaryPath archs)));;
  let outputDir := outputDirOf flags in
  if negb (BuildBinary flags) then
    check (invoke Main (RemoveAll flags outputDir));;
    check (invoke Main (CopyDir flags outputDir workOutputDir))
  else
    check (invoke Main (CopyFile flags
             (filepath_Join [outputDir; "ios"; "MatchaBridge"; "MatchaBridge";
                             "MatchaBridge.a"]) binaryPath)).

(** The iOS block up to the fan-out. *)
Definition iosPrepare (flags : Flags) (args : list string)
    (tempdir cmdPath : string) (pkgs : list Package) (targets : gset string)
  : M (list (list string)) :=
  let workOutputDir := filepath_Join [tempdir; "matcha-ios"] in
  check (invoke Main (Mkdir flags workOutputDir));;
  let binaryPath := binaryPathOf tempdir in
  check (invoke Main (Mkdir flags (filepath_Dir binaryPath)));;
  let mainPath := filepath_Join [tempdir; "src"; "iosbin"; "main.go"] in
  e ← writeMain flags mainPath args;
  match e with
  | Some e => returns (Some ("failed to create the binding package for iOS: " +:+ e))
  | None => mret tt
  end;;
  (if negb (BuildBinary flags) then
     copyIosDirs flags workOutputDir pkgs;;
     check (invoke Main (CopyFile flags
              (filepath_Join [workOutputDir; "MatchaBridge"; "MatchaBridge"; "matchaobjc.h"])
              (filepath_Join [cmdPath; "matchaforeign.h.support"])));;
     check (invoke Main (CopyFile flags
              (filepath_Join [workOutputDir; "MatchaBridge"; "MatchaBridge"; "matchago.h"])
              (filepath_Join [cmdPath; "matchago.h.support"])))
   else mret tt);;
  iosEnvs flags targets.

Definition bindIOS (flags : Flags) (args : list string)
    (tempdir cmdPath : string) (pkgs : list Package) (targets : gset string)
  : M unit :=
  envs ← iosPrepare flags args tempdir cmdPath pkgs targets;
  iosBuild flags tempdir (filepath_Join [tempdir; "src"; "iosbin"; "main.go"]) envs.

(** *** Android *)

Definition androidArchsOf (targets : gset string) : list string :=
  let androidArchs := [] in
  let androidArchs :=
    if decide ("android/arm" ∈ targets) then androidArchs ++ ["arm"] else androidArchs in
  let androidArchs :=
    if decide ("android/arm64" ∈ targets) then androidArchs ++ ["arm64"] else androidArchs in
  let androidArchs :=
    if decide ("android/386" ∈ targets) then androidArchs ++ ["386"] else androidArchs in
  if decide ("android/amd64" ∈ targets) then androidArchs ++ ["amd64"] else androidArchs.

(** [for _, arch := range androidArchs {...}]: each compiler invocation is
    made by [Bind] itself, after the previous one returned without error. *)
Fixpoint androidBuilds (flags : Flags) (tempdir gopathDir gomobpath androidDir
    mainPath : string) (androidArchs : list string) : M unit :=
  match androidArchs with
  | [] => mret tt
  | arch :: rest =>
    androidENV ← try (invoke Main (GetAndroidEnv gomobpath));
    let env := default [] (androidENV !! arch) in
    gopath ← invoke Main (OsGetenv "GOPATH");
    let env := env ++ ["GOPATH=" +:+ gopathDir +:+ ListSeparator +:+ gopath] in
    check (invoke Main (GoBuild flags mainPath env androidContext tempdir
             ["-buildmode=c-shared";
              "-o=" +:+ filepath_Join [androidDir;
                          "src/main/jniLibs/" +:+ GetAndroidABI arch +:+ "/libgojni.so"]]));;
    androidBuilds flags tempdir gopathDir gomobpath androidDir mainPath rest
  end.

Definition bindAndroid (flags : Flags) (args : list string)
    (tempdir cmdPath : string) (pkgs : list Package) (targets : gset string)
  : M unit :=
  let gopathDir := filepath_Join [tempdir; "ANDROID-GOPATH"] in
  let pkgs2 := foldl (λ pkgs2 i, pkgs2 ++ [i]) [] pkgs in
  let androidArchs := androidArchsOf targets in
  gomobpath ← try (invoke Main GoMobilePath);
  let androidDir := filepath_Join [tempdir; "android"] in
  let mainPath := filepath_Join [tempdir; "androidlib/main.go"] in
  e ← writeMain flags mainPath args;
  match e with
  | Some e => returns (Some ("failed to create the main package for android: " +:+ e))
  | None => mret tt
  end;;
  let javaDir2 := filepath_Join [androidDir; "src"; "main"; "java"; "io"; "gomatcha"; "bridge"] in
  check (invoke Main (Mkdir flags javaDir2));;
  check (invoke Main (CopyFile flags (filepath_Join [javaDir2; "GoValue.java"])
                        (filepath_Join [cmdPath; "GoValue.java"])));;
  check (invoke Main (CopyFile flags (filepath_Join [javaDir2; "Bridge.java"])
                        (filepath_Join [cmdPath; "Bridge.java"])));;
  check (invoke Main (CopyFile flags (filepath_Join [javaDir2; "Tracker.java"])
                        (filepath_Join [cmdPath; "Tracker.java"])));;
  let workOutputDir := filepath_Join [tempdir; "matcha-android"] in
  check (invoke Main (Mkdir flags workOutputDir));;
  let aarDirPath := filepath_Join [workOutputDir; "MatchaBridge"] in
  let aarPath := filepath_Join [workOutputDir; "MatchaBridge"; "matchabridge.aar"] in
  check (invoke Main (Mkdir flags aarDirPath));;
  androidBuilds flags tempdir gopathDir gomobpath androidDir mainPath androidArchs;;
  check (invoke Main (BuildAAR flags androidDir pkgs2 androidArchs tempdir aarPath));;
  let outputDir := outputDirOf flags in
  check (invoke Main (CopyFile flags
           (filepath_Join [outputDir; "android"; "matchabridge.aar"]) aarPath)).

(** *** [Bind] *)

(** Lines 74-141: toolchain check, working directory, packages. *)
Definition prelude (flags : Flags) (args : list string)
  : M (list Package * string) :=
  gomobilepath ← try (invoke Main GoMobilePath);
  r ← invoke Main (ReadFile flags (filepath_Join [gomobilepath; "version"]));
  installedVersion ←
    match r with
    | Err _ => returns (Some "toolchain partially installed, run `matcha init`")
    | Ok v => mret v
    end;
  goVersion ← try (invoke Main (GoVersion flags));
  (if negb (bool_decide (installedVersion = goVersion)) && ShouldRun flags
   then returns (Some "toolchain out of date, run `matcha init`")
   else mret tt);;
  cwd ← try (invoke Main OsGetwd);
  let importPaths := importPathsOf args in
  let srcDir := cwd in
  pkgs ← try (invoke Main (ImportAll iosContext importPaths srcDir));
  rejectMain pkgs;;
  cmdPath ← try (invoke Main (PackageDir flags "gomatcha.io/matcha/cmd"));
  mret (pkgs, cmdPath).

(** The statements of [Bind] after the [defer]. *)
Definition bindBody (flags : Flags) (args : list string) (tempdir : string)
  : M unit :=
  let targets := ParseTargets (BuildTargets flags) in
  '(pkgs, cmdPath) ← prelude flags args;
  (if decide ("ios" ∈ targets)
   then bindIOS flags args tempdir cmdPath pkgs targets else mret tt);;
  (if decide ("android" ∈ targets)
   then bindAndroid flags args tempdir cmdPath pkgs targets else mret tt);;
  returns None.

Definition Bind (flags : Flags) (args : list string) : M unit :=
  tempdir ← try (invoke Main (NewTmpDir flags ""));
  if negb (BuildWork flags)
  then defer (invoke Main (RemoveAll flags tempdir)) (bindBody flags args tempdir)
  else bindBody flags args tempdir.

(** *** [Build] *)

(** [flags.BuildBinary = true; flags.BuildO = iosDir]: [flags] is a pointer,
    so the caller's flags are updated as well. *)
Definition binaryFlags (flags : Flags) (iosDir : string) : Flags :=
  {| BuildTargets := BuildTargets flags; BuildWork := BuildWork flags;
     BuildBinary := true; BuildO := iosDir |}.

Definition Build (flags : Flags) (args : list string) : M unit :=
  iosDir ← try (invoke Main (PackageDir flags "gomatcha.io/matcha"));
  Bind (binaryFlags flags iosDir) args.

End Bind.

Arguments Run {_ A} res final events.
Arguments res {_ A} r.
Arguments final {_ A} r.
Arguments events {_ A} r.

(** ** Vocabulary for statements about runs *)

Section Vocabulary.

Context `{E : !Env}.

(** [m] produces only events that satisfy [P], whatever the world. *)
Definition only (P : event → Prop) {A} (m : M A) : Prop :=
  ∀ w, Forall P (events (m w)).

(** A [RemoveAll], if the event is one, is applied to the output directory. *)
Definition removesOutputOnly (flags : Flags) (ev : event) : Prop :=
  ∀ d, removed ev = Some d → d = outputDirOf flags.

(** The two header files copied into the working tree of a full bundle. *)
Definition supportHeaders : list string :=
  ["matchaforeign.h.support"; "matchago.h.support"].

(** An event that merges nothing and leaves the output location alone: not a
    failed receive, not a [RunCmd], [CopyDir] or [RemoveAll], and a
    [CopyFile] only of a support header while a full bundle is built. *)
Definition calm (flags : Flags) (ev : event) : Prop :=
  failedRecv ev = None ∧ ranCmd ev = None ∧ copiedDir ev = None
  ∧ removed ev = None
  ∧ ∀ dst src, copiedFile ev = Some (dst, src) →
      BuildBinary flags = false
      ∧ ∃ d h, src = filepath_Join [d; h] ∧ h ∈ supportHeaders.

(** An event that is neither the receipt of a message nor a [RunCmd]. *)
Definition plain (ev : event) : Prop :=
  recvd ev = None ∧ ranCmd ev = None.

(** The [GOARCH] of a build environment. *)
Definition goarch (env : list string) : string := Getenv env "GOARCH".

(** A call of the goroutine started for [env] (lines 248 and 250):
    [os.Getenv("GOPATH")], or the compiler invocation for [env] with the
    [GOPATH] entry appended, writing the archive of its architecture. *)
Definition goroutineCall (flags : Flags) (mainPath tempdir gopathDir : string)
    (env : list string) (ev : event) : Prop :=
  ev = Called (Goroutine env) (OsGetenv "GOPATH")
  ∨ ∃ gopath,
      ev = Called (Goroutine env)
             (GoBuild flags mainPath
                (env ++ ["GOPATH=" +:+ gopathDir +:+ ListSeparator +:+ gopath])
                iosContext tempdir
                ["-buildmode=c-archive"; "-o";
                 filepath_Join [tempdir; "matcha-" +:+ goarch env +:+ ".a"]]).

(** What happens while [Bind] is not looking: the scheduler is asked, or a
    goroutine started for one of [envs] makes a call. *)
Definition pooled (flags : Flags) (mainPath tempdir gopathDir : string)
    (envs : list (list string)) (ev : event) : Prop :=
  (∃ n, ev = Called Main (Preempt n))
  ∨ ∃ env, env ∈ envs ∧ goroutineCall flags mainPath tempdir gopathDir env ev.

(** The same for the goroutines of a run of [Bind] with working directory
    [tempdir], those started in [pre]. *)
Definition straggler (flags : Flags) (tempdir : string) (pre : list event)
    (ev : event) : Prop :=
  pooled flags (filepath_Join [tempdir; "src"; "iosbin"; "main.go"]) tempdir
    (filepath_Join [tempdir; "IOS-GOPATH"]) (omap spawned pre) ev.

(** A goroutine that waits at its send holds the message of its own
    build. *)
Definition sound (tempdir : string) (g : goroutine) : Prop :=
  match g with
  | Sending env msg =>
    arch msg = goarch env
    ∧ path msg = filepath_Join [tempdir; "matcha-" +:+ goarch env +:+ ".a"]
  | _ => True
  end.

(** The shape of a run with respect to failed builds: either no received
    message carries an error, or the run stops at the first one that does,
    returning its error, with only calm events before it, among which the
    start of the goroutine that sent it, and after it nothing but what the
    goroutines started before do on their own. *)
Definition failsFast (flags : Flags) (mainPath tempdir gopathDir : string) {A}
    (r : completion A) (evs : list event) : Prop :=
  Forall (λ ev, failedRecv ev = None) evs
  ∨ ∃ pre msg e env rest,
      evs = pre ++ Recv msg :: rest ∧ err msg = Some e
      ∧ r = Return (Some e) ∧ Forall (calm flags) pre
      ∧ Go env ∈ pre ∧ arch msg = Getenv env "GOARCH"
      ∧ Forall (pooled flags mainPath tempdir gopathDir (omap spawned pre)) rest.

Definition FailsFast (flags : Flags) (mainPath tempdir gopathDir : string) {A}
    (m : M A) : Prop :=
  ∀ w, failsFast flags mainPath tempdir gopathDir (res (m w)) (events (m w)).

(** The arguments [lipo] receives for a list of results, in that order. *)
Definition lipoInputs (archs : list archPath) : list string :=
  a ← archs; ["-arch"; ArchClang (arch a); path a].

(** What a run shows of the merge: no command at all, or the one [lipo]
    command, built from the messages in the order they were received. *)
Definition mergesAsReceived (tempdir : string) (evs : list event) : Prop :=
  omap ranCmd evs = []
  ∨ omap ranCmd evs = [lipoCommand (binaryPathOf tempdir) (omap recvd evs)].

(** Every compiler invocation among the events is made by a thread in [p],
    and no goroutine is started. *)
Definition compilesIn (p : thread → Prop) (ev : event) : Prop :=
  spawned ev = None ∧ ∀ who env, built ev = Some (who, env) → p who.

(** The keys of the iOS and Android architectures, in the order in which
    [Bind] looks them up. *)
Definition iosKeys : list string :=
  ["ios/arm"; "ios/arm64"; "ios/386"; "ios/amd64"].

Definition androidNames : list string := ["arm"; "arm64"; "386"; "amd64"].

(** The ways [m] can stop short of falling through: each [return e] satisfies
    [Q (inl e)], each panic [Q (inr msg)]. *)
Definition exits (Q : option error + string → Prop) {A} (m : M A) : Prop :=
  ∀ w,
    match res (m w) with
    | Val _ => True
    | Return e => Q (inl e)
    | Panic msg => Q (inr msg)
    end.

(** A way out that is not a panic. *)
Definition returning (x : option error + string) : Prop :=
  ∃ e, x = inl e.

(** A way out that is not [return nil]. *)
Definition failing (x : option error + string) : Prop :=
  x ≠ inl None.

(** Where a run in binary mode may copy a file to: the two binaries in the
    output directory, and the Java sources of the bridge in the working
    directory. *)
Definition binaryDestination (flags : Flags) (tempdir dst : string) : Prop :=
  dst = filepath_Join [outputDirOf flags; "ios"; "MatchaBridge"; "MatchaBridge";
                       "MatchaBridge.a"]
  ∨ dst = filepath_Join [outputDirOf flags; "android"; "matchabridge.aar"]
  ∨ ∃ f, dst = filepath_Join
                 [filepath_Join [filepath_Join [tempdir; "android"]; "src"; "main";
                                 "java"; "io"; "gomatcha"; "bridge"]; f].

(** The answers one turn of the Android loop got: from [GetAndroidEnv], from
    [os.Getenv("GOPATH")] and from the compiler. *)
Record turn := {
  turnEnv : gmap string (list string);
  turnGopath : string;
  outcome : option error
}.

(** What one turn of the Android loop for [arch] shows (lines 369-383):
    [Bind] itself asks for the environments, reads [GOPATH], and invokes the
    compiler with the environment of [arch] followed by the [GOPATH] entry,
    for the shared library of the ABI of [arch]. *)
Definition androidTurn (flags : Flags)
    (tempdir gopathDir gomobpath androidDir mainPath : string)
    (arch : string) (t : turn) : list reply :=
  [ Reply Main (GetAndroidEnv gomobpath) (Ok (turnEnv t));
    Reply Main (OsGetenv "GOPATH") (turnGopath t);
    Reply Main
      (GoBuild flags mainPath
         (default [] (turnEnv t !! arch)
            ++ ["GOPATH=" +:+ gopathDir +:+ ListSeparator +:+ turnGopath t])
         androidContext tempdir
         ["-buildmode=c-shared";
          "-o=" +:+ filepath_Join
                      [androidDir;
                       "src/main/jniLibs/" +:+ GetAndroidABI arch
                         +:+ "/libgojni.so"]])
      (outcome t) ].

(** The turns for the first architectures of [archs], one after the other
    in the order of [archs], as many as there are [turns]. *)
Definition androidTurns (flags : Flags)
    (tempdir gopathDir gomobpath androidDir mainPath : string)
    (archs : list string) (turns : list turn) : list reply :=
  mjoin (zip_with (λ t arch, androidTurn flags tempdir gopathDir gomobpath
                               androidDir mainPath arch t) turns archs).

(** A turn whose compiler invocation returned [nil]. *)
Definition built_ok (t : turn) : Prop := outcome t = None.

(** The three ways in which a loop over [archs] that has shown [turns] and
    then [tail] ends: every architecture was built; or the compiler failed
    in the last turn shown, which ends the loop with its error; or the
    environments could not be had for the next architecture. *)
Definition loopEnd (gomobpath : string) (archs : list string)
    (turns : list turn) (tail : list reply) (r : completion unit) : Prop :=
  (r = Val tt ∧ tail = [] ∧ length turns = length archs
   ∧ Forall built_ok turns)
  ∨ (∃ before t e,
       turns = before ++ [t] ∧ Forall built_ok before ∧ outcome t = Some e
       ∧ tail = [] ∧ (length turns ≤ length archs)%nat
       ∧ r = Return (Some e))
  ∨ (∃ e,
       tail = [Reply Main (GetAndroidEnv gomobpath) (Err e)]
       ∧ Forall built_ok turns ∧ (length turns < length archs)%nat
       ∧ r = Return (Some e)).

(** The state of the world is what the calls of the trace have made of
    it. *)
Definition coherent {A} (m : M A) : Prop :=
  ∀ w, final (m w) = replay w (events (m w)).

(** What a run of the Android block with working directory [tempdir] shows
    of the packaging: no [BuildAAR] at all, or exactly one, for [pkgs] and
    [archs], right after the loop has gone through all of [archs], turn by
    turn, with every compiler invocation returning [nil]; [Bind] compiles
    nothing before the loop and nothing after the packaging. *)
Definition packagesAll (flags : Flags) (tempdir : string) (pkgs : list Package)
    (archs : list string) (w : W) (evs : list event) : Prop :=
  omap packaged evs = []
  ∨ ∃ pre loop ev post gomobpath turns,
      evs = pre ++ loop ++ ev :: post
      ∧ packaged ev = Some (pkgs, archs)
      ∧ replies (replay w pre) loop
        = androidTurns flags tempdir (filepath_Join [tempdir; "ANDROID-GOPATH"])
            gomobpath (filepath_Join [tempdir; "android"])
            (filepath_Join [tempdir; "androidlib/main.go"]) archs turns
      ∧ length turns = length archs ∧ Forall built_ok turns
      ∧ omap builtByMain pre = [] ∧ omap builtByMain post = []
      ∧ omap packaged (pre ++ loop ++ post) = [].

(** The events show the Android loop of a run of [Bind] with working
    directory [tempdir] going through all of [archs], each turn with a
    compiler invocation that returned [nil], and no other compiler
    invocation by [Bind] itself before or after. *)
Definition buildsAll (flags : Flags) (tempdir : string) (archs : list string)
    (w : W) (evs : list event) : Prop :=
  ∃ pre loop post gomobpath turns,
    evs = pre ++ loop ++ post
    ∧ replies (replay w pre) loop
      = androidTurns flags tempdir (filepath_Join [tempdir; "ANDROID-GOPATH"])
          gomobpath (filepath_Join [tempdir; "android"])
          (filepath_Join [tempdir; "androidlib/main.go"]) archs turns
    ∧ length turns = length archs ∧ Forall built_ok turns
    ∧ omap builtByMain pre = [] ∧ omap builtByMain post = [].

(** The message of the goroutine started for [env] when its build succeeds
    (lines 246-250). *)
Definition archiveOf (tempdir : string) (env : list string) : archPath :=
  {| arch := goarch env;
     path := filepath_Join [tempdir; "matcha-" +:+ goarch env +:+ ".a"];
     err := None |}.

(** The events show the iOS block of a run of [Bind] with working directory
    [tempdir] going through with the architectures of [targets]: the
    environments of exactly the requested architectures are looked up, in
    the order of [iosKeys]; the goroutines started are those for the
    environments that were answered, in that order; the messages received
    are, up to their order, the archives of these goroutines, none with an
    error; and one command is run. *)
Definition deliversAll (tempdir : string) (targets : gset string) (w : W)
    (evs : list event) : Prop :=
  omap darwinKey evs = filter (λ k, k ∈ targets) iosKeys
  ∧ omap spawned evs = omap darwinEnv (replies w evs)
  ∧ omap recvd evs ≡ₚ archiveOf tempdir <$> omap spawned evs
  ∧ length (omap ranCmd evs) = 1%nat.

(** An event that has no part in the work of the iOS block. *)
Definition iosQuiet (ev : event) : Prop :=
  darwinKey ev = None ∧ spawned ev = None ∧ recvd ev = None ∧ ranCmd ev = None.

End Vocabulary.

(** ** A concrete environment

    Every file operation succeeds; the compiler fails for the architectures
    listed in [broken]; the world is the list of choices the scheduler has
    yet to make (0 once it is used up).  In [env] these are the choices of
    the senders, and a goroutine runs only when [Bind] waits for its
    message; in [busy] they are all the choices of the scheduler, in the
    order in which it is asked. *)

Module Demo.

Definition join (elem : list string) : string := String.concat "/" elem.

Definition getenv (env : list string) (key : string) : string :=
  match find (λ kv, String.prefix (key +:+ "=") kv) env with
  | Some kv => String.substring (S (String.length key)) (String.length kv) kv
  | None => ""
  end.

Definition archClang (goarch : string) : string :=
  if decide (goarch = "arm") then "armv7"
  else if decide (goarch = "arm64") then "arm64"
  else if decide (goarch = "386") then "i386"
  else if decide (goarch = "amd64") then "x86_64"
  else "".

Definition androidABI (goarch : string) : string :=
  if decide (goarch = "arm") then "armeabi-v7a"
  else if decide (goarch = "arm64") then "arm64-v8a"
  else if decide (goarch = "386") then "x86"
  else if decide (goarch = "amd64") then "x86_64"
  else "".

Definition darwin (goarch : string) : list string :=
  ["GOOS=darwin"; "GOARCH=" +:+ goarch].

Definition androidEnv : gmap string (list string) :=
  list_to_map ((λ a, (a, ["GOOS=android"; "GOARCH=" +:+ a]))
                 <$> ["arm"; "arm64"; "386"; "amd64"]).

Definition package : Package :=
  {| Name := "app"; ImportComment := ""; Imports := ["gomatcha.io/matcha/view"];
     Dir := "/src/app" |}.

Definition compile (broken : list string) (env : list string) : option error :=
  let goarch := getenv env "GOARCH" in
  if decide (goarch ∈ broken) then Some ("build failed for " +:+ goarch) else None.

Definition answer (preempt : list nat → nat * list nat) (broken : list string)
    (R : Type) (c : call R) : list nat → R * list nat :=
  match c in call R return list nat → R * list nat with
  | NewTmpDir _ _ => λ w, (Ok "/tmp/work", w)
  | RemoveAll _ _ => λ w, (None, w)
  | GoMobilePath => λ w, (Ok "/gopath/pkg/gomobile", w)
  | ReadFile _ _ => λ w, (Ok "go1.9", w)
  | GoVersion _ => λ w, (Ok "go1.9", w)
  | OsGetwd => λ w, (Ok "/src/app", w)
  | OsGetenv _ => λ w, ("/gopath", w)
  | ImportAll _ _ _ => λ w, (Ok [package], w)
  | PackageDir _ pkg => λ w, (Ok (join ["/gopath/src"; pkg]), w)
  | Mkdir _ _ => λ w, (None, w)
  | WriteFile _ _ _ => λ w, ({| invoked := true; result := None |}, w)
  | ReadDir _ => λ w, (Ok [], w)
  | CopyDirContents _ _ _ => λ w, (None, w)
  | CopyFile _ _ _ => λ w, (None, w)
  | CopyDir _ _ _ => λ w, (None, w)
  | DarwinArmEnv _ => λ w, (Ok (darwin "arm"), w)
  | DarwinArm64Env _ => λ w, (Ok (darwin "arm64"), w)
  | Darwin386Env _ => λ w, (Ok (darwin "386"), w)
  | DarwinAmd64Env _ => λ w, (Ok (darwin "amd64"), w)
  | GoBuild _ _ env _ _ _ => λ w, (compile broken env, w)
  | RunCmd _ _ _ => λ w, (None, w)
  | GetAndroidEnv _ => λ w, (Ok androidEnv, w)
  | BuildAAR _ _ _ _ _ _ => λ w, (None, w)
  | Schedule _ => λ w, (hd 0 w, tl w)
  | Preempt _ => preempt
  end.

Definition envWith (preempt : list nat → nat * list nat) (broken : list string)
  : Env := {|
  W := list nat;
  oracle := answer preempt broken;
  ShouldRun := λ _, true;
  Getenv := getenv;
  ArchClang := archClang;
  GetAndroidABI := androidABI;
  filepath_Join := join;
  filepath_Dir := λ p, p +:+ "/..";
  path_Clean := λ p, p;
  ListSeparator := ":";
  buildDefault := {| GOARCH := "amd64"; GOOS := "linux"; BuildTags := [] |}
|}.

Definition env (broken : list string) : Env := envWith (λ w, (0, w)) broken.

Definition busy (broken : list string) : Env :=
  envWith (λ w, (hd 0 w, tl w)) broken.

Definition flags (targets : string) : Flags :=
  {| BuildTargets := targets; BuildWork := false; BuildBinary := true;
     BuildO := "out" |}.

End Demo.
(** *** Tests of the tokenizer and of the resolver *)

Example Fields_blank : Fields "  	 " = [].
Proof. reflexivity. Qed.

Example Fields_two : Fields " android   ios/arm	" = ["android"; "ios/arm"].
Proof. reflexivity. Qed.

(** U+00A0 (bytes C2 A0) and U+2003 (bytes E2 80 83) separate fields. *)
Example Fields_unicode :
  Fields ("ios" +:+ String (ascii_of_nat 194) (String (ascii_of_nat 160) "a")
            +:+ String (ascii_of_nat 226) (String (ascii_of_nat 128)
                  (String (ascii_of_nat 131) "b")))
  = ["ios"; "a"; "b"].
Proof. reflexivity. Qed.

Example ParseTargets_qualified :
  ParseTargets "ios/arm64" = {["ios"; "ios/arm64"]}.
Proof. vm_compute. reflexivity. Qed.

(** ** Properties of [ParseTargets] *)

Section Resolver.

Implicit Types (T : gset string) (i x : string) (t : token) (l : list string).

Lemma tokenOf_name t : tokenOf (tokenName t) = Some t.
Proof. by destruct t as [[]|[] []]. Qed.

Lemma tokenOf_Some i t : tokenOf i = Some t → tokenName t = i.
Proof.
  unfold tokenOf. intros H.
  apply head_Some_elem_of in H.
  by apply list_elem_of_filter in H as [? _].
Qed.

Lemma isKnown_tokenOf i : isKnown i = true ↔ is_Some (tokenOf i).
Proof.
  unfold isKnown. rewrite bool_decide_eq_true, list_elem_of_fmap. split.
  - intros (t & -> & _). rewrite tokenOf_name. by eexists.
  - intros [t Ht]. exists t. split; [by apply tokenOf_Some in Ht|].
    by destruct t as [[]|[] []]; vm_compute; set_solver.
Qed.

Lemma isKnown_false i : isKnown i = false ↔ tokenOf i = None.
Proof.
  rewrite <- not_true_iff_false, isKnown_tokenOf, <- eq_None_not_Some. done.
Qed.

(** The [switch] adds the expansion of the token its argument names, and
    nothing for any other string. *)
Lemma addTarget_known T t : addTarget T (tokenName t) = expansion t ∪ T.
Proof.
  destruct t as [[]|[] []]; unfold addTarget, setKey; cbn;
    repeat (case_decide as H;
            [|try done; try (exfalso; apply H; rewrite !elem_of_cons; tauto)]);
    try done; try set_solver.
Qed.

Lemma addTarget_unnamed T i : (∀ t, tokenName t ≠ i) → addTarget T i = T.
Proof.
  intros H. unfold addTarget. repeat case_decide; try done.
  - by destruct (H (Bare Android)).
  - exfalso. rewrite !elem_of_cons, elem_of_nil in *.
    destruct_or!; try done;
      [ apply (H (Qualified Android Arm)) | apply (H (Qualified Android Arm64))
      | apply (H (Qualified Android X386)) | apply (H (Qualified Android Amd64)) ];
      done.
  - by destruct (H (Bare IOS)).
  - exfalso. rewrite !elem_of_cons, elem_of_nil in *.
    destruct_or!; try done;
      [ apply (H (Qualified IOS Arm)) | apply (H (Qualified IOS Arm64))
      | apply (H (Qualified IOS X386)) | apply (H (Qualified IOS Amd64)) ];
      done.
Qed.

Lemma addTarget_tokenOf T i :
  addTarget T i = match tokenOf i with Some t => expansion t ∪ T | None => T end.
Proof.
  destruct (tokenOf i) as [t|] eqn:E.
  - apply tokenOf_Some in E as <-. apply addTarget_known.
  - apply addTarget_unnamed. intros t <-. by rewrite tokenOf_name in E.
Qed.

Lemma addTarget_unknown T i : isKnown i = false → addTarget T i = T.
Proof. rewrite isKnown_false, addTarget_tokenOf. by intros ->. Qed.

Lemma expansion_marker t :
  platformName (match t with Bare p | Qualified p _ => p end) ∈ expansion t.
Proof. destruct t; cbn; set_solver. Qed.

Lemma expansion_universe t : expansion t ⊆ universe.
Proof.
  destruct t as [[]|[] []];
    apply (bool_decide_unpack (_ ⊆ universe)); by vm_compute.
Qed.

Lemma elem_of_addTarget T i x :
  x ∈ addTarget T i ↔ x ∈ T ∨ ∃ t, tokenName t = i ∧ x ∈ expansion t.
Proof.
  rewrite addTarget_tokenOf. destruct (tokenOf i) as [t|] eqn:E.
  - apply tokenOf_Some in E as E'. rewrite elem_of_union. split.
    + intros [?|?]; [right; eauto|by left].
    + intros [?|(t' & Ht' & ?)]; [by right|left].
      rewrite <- Ht', tokenOf_name in E. by simplify_eq.
  - split; [by left|]. intros [?|(t & <- & _)]; [done|].
    by rewrite tokenOf_name in E.
Qed.

Lemma elem_of_foldl_addTarget l T x :
  x ∈ foldl addTarget T l ↔ x ∈ T ∨ ∃ t, tokenName t ∈ l ∧ x ∈ expansion t.
Proof.
  revert T. induction l as [|i l IH]; intros T; cbn.
  - set_solver.
  - rewrite IH, elem_of_addTarget. set_solver.
Qed.

Lemma foldl_addTarget_filter l T :
  foldl addTarget T (filter (λ i, isKnown i = true) l) = foldl addTarget T l.
Proof.
  revert T. induction l as [|i l IH]; intros T; [done|].
  rewrite filter_cons. cbn. case_decide as Hk; cbn; [done|].
  apply not_true_is_false in Hk. by rewrite IH, addTarget_unknown.
Qed.

Lemma foldl_addTarget_nonempty l :
  (∃ t, tokenName t ∈ l) → foldl addTarget ∅ l ≠ ∅.
Proof.
  intros [t Ht] Hempty.
  assert (platformName (match t with Bare p | Qualified p _ => p end)
            ∈ foldl addTarget ∅ l) as Hin.
  { apply elem_of_foldl_addTarget. right. exists t. split; [done|].
    apply expansion_marker. }
  rewrite Hempty in Hin. set_solver.
Qed.

Lemma targetsSlice_fields a : Fields a ≠ [] → targetsSlice a = Fields a.
Proof. unfold targetsSlice. by destruct (Fields a). Qed.

Lemma targetsSlice_default a : Fields a = [] → targetsSlice a = ["android"; "ios"].
Proof. unfold targetsSlice. by intros ->. Qed.

Lemma ParseTargets_default_universe : ParseTargets "" = universe.
Proof. vm_compute. reflexivity. Qed.

End Resolver.

(** C3 (counterexample): a specification made of one unknown token has
    fields, so the default does not apply, and names nothing: the returned
    set is empty. *)
Lemma ParseTargets_unknown_token_empty : ParseTargets "windows" = ∅.
Proof. vm_compute. reflexivity. Qed.

(** C3 (as amended): [ParseTargets] returns a non-empty set exactly when the
    input has no token (the default of all known platforms applies) or at
    least one of its tokens is a known platform or platform/architecture
    name. *)
Theorem ParseTargets_nonempty_iff (a : string) :
  ParseTargets a ≠ ∅ ↔ Fields a = [] ∨ ∃ i, i ∈ Fields a ∧ isKnown i = true.
Proof.
  unfold ParseTargets. split.
  - intros Hne. destruct (Fields a) as [|f fs] eqn:E; [by left|right].
    apply set_choose_L in Hne as [x Hx].
    rewrite targetsSlice_fields in Hx by (by rewrite E).
    rewrite E in Hx.
    apply elem_of_foldl_addTarget in Hx as [Hx|(t & Ht & _)]; [set_solver|].
    exists (tokenName t). split; [done|].
    apply isKnown_tokenOf. rewrite tokenOf_name. by eexists.
  - intros H. apply (foldl_addTarget_nonempty (targetsSlice a)).
    destruct H as [E|(i & Hi & Hk)].
    + rewrite targetsSlice_default by done. exists (Bare IOS). set_solver.
    + rewrite targetsSlice_fields by (intros E; rewrite E in Hi; set_solver).
      apply isKnown_tokenOf in Hk as [t Ht]. apply tokenOf_Some in Ht.
      exists t. by rewrite Ht.
Qed.

(** C4: for an input with at least one token, all of them known names, the
    returned set holds exactly the expansions of its tokens (a bare platform:
    the marker and every architecture of it; a qualified token: the marker
    and that architecture), each name once. *)
Theorem ParseTargets_exact (a : string) :
  Fields a ≠ [] →
  Forall (λ i, isKnown i = true) (Fields a) →
  (∀ x, x ∈ ParseTargets a ↔ ∃ t, tokenName t ∈ Fields a ∧ x ∈ expansion t)
  ∧ NoDup (elements (ParseTargets a)).
Proof.
  intros Hne _. split; [|apply NoDup_elements].
  intros x. unfold ParseTargets. rewrite targetsSlice_fields by done.
  rewrite elem_of_foldl_addTarget. set_solver.
Qed.

(** C4 (witness): one qualified token and one bare platform. *)
Lemma ParseTargets_exact_witness :
  Fields "android/arm ios" ≠ []
  ∧ Forall (λ i, isKnown i = true) (Fields "android/arm ios")
  ∧ ((∀ x, x ∈ ParseTargets "android/arm ios"
          ↔ ∃ t, tokenName t ∈ Fields "android/arm ios" ∧ x ∈ expansion t)
     ∧ NoDup (elements (ParseTargets "android/arm ios"))).
Proof.
  assert (Fields "android/arm ios" ≠ []) as H1 by (by vm_compute).
  assert (Forall (λ i, isKnown i = true) (Fields "android/arm ios")) as H2
    by (vm_compute; repeat constructor).
  exact (conj H1 (conj H2 (ParseTargets_exact "android/arm ios" H1 H2))).
Defined.

(** C5: the empty specification resolves to the same set as the one naming
    both bare platforms, namely both markers with all their architectures. *)
Theorem ParseTargets_empty_is_both :
  ParseTargets "" = ParseTargets "android ios"
  ∧ ParseTargets "" = expansion (Bare Android) ∪ expansion (Bare IOS).
Proof. split; vm_compute; reflexivity. Qed.

(** C6: unknown tokens are ignored: the result is the one obtained from the
    known tokens alone, every name in it comes from a known token, and the
    function is total (its type has no error outcome). *)
Theorem ParseTargets_ignores_unknown (a : string) :
  ParseTargets a
    = foldl addTarget ∅ (filter (λ i, isKnown i = true) (targetsSlice a))
  ∧ ∀ x, x ∈ ParseTargets a →
      ∃ t, tokenName t ∈ targetsSlice a ∧ isKnown (tokenName t) = true
           ∧ x ∈ expansion t.
Proof.
  unfold ParseTargets. split; [by rewrite foldl_addTarget_filter|].
  intros x Hx. apply elem_of_foldl_addTarget in Hx as [Hx|(t & Ht & Hxt)].
  - set_solver.
  - exists t. split_and!; [done| |done].
    apply isKnown_tokenOf. rewrite tokenOf_name. by eexists.
Qed.

(** C10: every returned set lies inside the universe of ten names, which is
    the set the empty specification resolves to. *)
Theorem ParseTargets_subset_universe (a : string) :
  ParseTargets a ⊆ universe ∧ ParseTargets a ⊆ ParseTargets ""
  ∧ size universe = 10.
Proof.
  cut (ParseTargets a ⊆ universe ∧ ParseTargets a ⊆ ParseTargets "").
  { intros [? ?]. split_and!; [done..|]. by vm_compute. }
  assert (ParseTargets a ⊆ universe) as H.
  { intros x Hx. apply elem_of_foldl_addTarget in Hx as [Hx|(t & _ & Hxt)].
    - set_solver.
    - by apply (expansion_universe t). }
  split; [done|]. by rewrite ParseTargets_default_universe.
Qed.

(** ** Further properties of [ParseTargets] *)

Definition platformOf (t : token) : platform :=
  match t with Bare p | Qualified p _ => p end.

Lemma elem_of_expansion t x :
  x ∈ expansion t ↔
  x = platformName (platformOf t)
  ∨ match t with
    | Bare p => ∃ ar, x = qualifiedName p ar
    | Qualified p ar => x = qualifiedName p ar
    end.
Proof.
  destruct t as [p|p ar]; cbn [expansion platformOf].
  - rewrite elem_of_union, elem_of_singleton, elem_of_list_to_set,
      list_elem_of_fmap. split.
    + intros [?|(ar & ? & _)]; eauto.
    + intros [?|[ar ?]]; [by left|right]. exists ar. split; [done|].
      destruct ar; unfold allArchs; rewrite !elem_of_cons; tauto.
  - rewrite elem_of_union, !elem_of_singleton. tauto.
Qed.

Lemma platformName_inj p q : platformName p = platformName q → p = q.
Proof. by destruct p, q. Qed.

Lemma platformName_not_qualified p q ar : platformName p ≠ qualifiedName q ar.
Proof. by destruct p, q, ar. Qed.

Lemma qualifiedName_inj p q a b :
  qualifiedName p a = qualifiedName q b → p = q ∧ a = b.
Proof. by destruct p, q, a, b. Qed.

Lemma elem_of_ParseTargets a x :
  x ∈ ParseTargets a ↔ ∃ t, tokenName t ∈ targetsSlice a ∧ x ∈ expansion t.
Proof.
  unfold ParseTargets. rewrite elem_of_foldl_addTarget.
  split; [intros [?|?]; [set_solver|done]|by right].
Qed.

Lemma targetsSlice_elem a b :
  (∀ i, i ∈ Fields a → i ∈ Fields b) → Fields a ≠ [] →
  ∀ i, i ∈ targetsSlice a → i ∈ targetsSlice b.
Proof.
  intros H Ha i. rewrite (targetsSlice_fields a) by done. intros Hi.
  rewrite targetsSlice_fields; [by apply H|].
  intros Hb. apply H in Hi. rewrite Hb in Hi. by apply elem_of_nil in Hi.
Qed.

Lemma ParseTargets_subset_tokens (a b : string) :
  Fields a ≠ [] → (∀ i, i ∈ Fields a → i ∈ Fields b) →
  ParseTargets a ⊆ ParseTargets b.
Proof.
  intros Ha H x. rewrite !elem_of_ParseTargets. intros (t & Ht & Hx).
  exists t. split; [|done]. by apply (targetsSlice_elem a b).
Qed.

(** X1: a specification whose tokens all occur in another one resolves to a
    subset of what the other one resolves to (as long as it has a token: the
    empty specification stands for everything). *)
Theorem ParseTargets_monotone (a b : string) :
  Fields a ≠ [] → (∀ i, i ∈ Fields a → i ∈ Fields b) →
  ParseTargets a ⊆ ParseTargets b.
Proof. apply ParseTargets_subset_tokens. Qed.

Lemma ParseTargets_monotone_witness :
  Fields "ios/arm" ≠ []
  ∧ (∀ i, i ∈ Fields "ios/arm" → i ∈ Fields "android ios/arm")
  ∧ ParseTargets "ios/arm" ⊆ ParseTargets "android ios/arm".
Proof.
  assert (Fields "ios/arm" ≠ []) as H1 by (by vm_compute).
  assert (∀ i, i ∈ Fields "ios/arm" → i ∈ Fields "android ios/arm") as H2.
  { intros i. change (Fields "ios/arm") with ["ios/arm"].
    change (Fields "android ios/arm") with ["android"; "ios/arm"].
    rewrite !elem_of_cons. tauto. }
  exact (conj H1 (conj H2 (ParseTargets_monotone _ _ H1 H2))).
Defined.

(** X2: the result depends on which tokens occur, not on their order or on
    how often they are repeated. *)
Theorem ParseTargets_same_tokens (a b : string) :
  (∀ i, i ∈ Fields a ↔ i ∈ Fields b) → ParseTargets a = ParseTargets b.
Proof.
  intros H.
  assert (∀ l k : list string, (∀ i, i ∈ l → i ∈ k) → k = [] → l = []) as Hnil.
  { intros [|x l] k Hlk ->; [done|]. exfalso.
    eapply elem_of_nil, Hlk, elem_of_cons. by left. }
  destruct (decide (Fields a = [])) as [Ea|Ea].
  - assert (Fields b = []) as Eb by (apply (Hnil _ (Fields a)); [apply H|done]).
    unfold ParseTargets, targetsSlice. by rewrite Ea, Eb.
  - assert (Fields b ≠ []) as Eb.
    { intros Eb. apply Ea, (Hnil _ (Fields b)); [apply H|done]. }
    apply set_eq. intros x. split.
    + apply ParseTargets_subset_tokens; [done|apply H].
    + apply ParseTargets_subset_tokens; [done|apply H].
Qed.

Lemma ParseTargets_same_tokens_witness :
  (∀ i, i ∈ Fields "ios android ios" ↔ i ∈ Fields " android  ios")
  ∧ ParseTargets "ios android ios" = ParseTargets " android  ios".
Proof.
  assert (∀ i, i ∈ Fields "ios android ios" ↔ i ∈ Fields " android  ios") as H.
  { intros i. change (Fields "ios android ios") with ["ios"; "android"; "ios"].
    change (Fields " android  ios") with ["android"; "ios"].
    rewrite !elem_of_cons. tauto. }
  exact (conj H (ParseTargets_same_tokens _ _ H)).
Defined.

Lemma marker_iff_architecture (a : string) (p : platform) :
  platformName p ∈ ParseTargets a ↔ ∃ ar, qualifiedName p ar ∈ ParseTargets a.
Proof.
  rewrite elem_of_ParseTargets. split.
  - intros (t & Ht & Hx). apply elem_of_expansion in Hx as [Hx|Hx].
    + apply platformName_inj in Hx as ->. destruct t as [q|q ar]; cbn.
      * exists Arm. apply elem_of_ParseTargets. exists (Bare q).
        split; [done|]. apply elem_of_expansion. right. by exists Arm.
      * exists ar. apply elem_of_ParseTargets. exists (Qualified q ar).
        split; [done|]. apply elem_of_expansion. by right.
    + exfalso. destruct t as [q|q ar].
      * destruct Hx as [ar Hx]. by apply platformName_not_qualified in Hx.
      * by apply platformName_not_qualified in Hx.
  - intros (ar & Hx). apply elem_of_ParseTargets in Hx as (t & Ht & Hx).
    exists t. split; [done|]. apply elem_of_expansion. left. f_equal.
    apply elem_of_expansion in Hx as [Hx|Hx].
    + symmetry in Hx. by apply platformName_not_qualified in Hx.
    + destruct t as [q|q ar']; cbn.
      * destruct Hx as [ar' Hx]. by apply qualifiedName_inj in Hx as [-> _].
      * by apply qualifiedName_inj in Hx as [-> _].
Qed.

(** X3: a platform marker is in the result exactly when an architecture of
    that platform is: [Bind] looks at the architecture keys of a platform
    only under its marker, and then finds at least one. *)
Theorem ParseTargets_marker_iff_architecture (a : string) (p : platform) :
  platformName p ∈ ParseTargets a ↔ ∃ ar, qualifiedName p ar ∈ ParseTargets a.
Proof. apply marker_iff_architecture. Qed.

(** ** Properties of [Bind] *)

Section BindProperties.

Context `{E : !Env}.

Implicit Types (flags : Flags) (args : list string) (w : W) (ev : event).

(** *** The monad *)

Lemma bind_run {A B} (m : M A) (k : A → M B) w :
  (m ≫= k) w =
  match res (m w) with
  | Val a =>
    let r' := k a (final (m w)) in
    Run (res r') (final r') (events (m w) ++ events r')
  | Return e => Run (Return e) (final (m w)) (events (m w))
  | Panic msg => Run (Panic msg) (final (m w)) (events (m w))
  end.
Proof. reflexivity. Qed.

Lemma invoke_run {R} who (c : call R) w :
  invoke who c w = Run (Val (oracle R c w).1) (oracle R c w).2 [Called who c].
Proof. unfold invoke. by destruct (oracle R c w). Qed.

Lemma check_invoke_run who (c : call (option error)) w :
  check (invoke who c) w =
  match (oracle _ c w).1 with
  | Some e => Run (Return (Some e)) (oracle _ c w).2 [Called who c]
  | None => Run (Val tt) (oracle _ c w).2 [Called who c]
  end.
Proof.
  unfold check. rewrite bind_run, invoke_run. cbn.
  destruct (oracle _ c w) as [[e|] w']; cbn; by rewrite ?app_nil_r.
Qed.

Lemma try_invoke_run {A} who (c : call (Result A)) w :
  try (invoke who c) w =
  match (oracle _ c w).1 with
  | Ok a => Run (Val a) (oracle _ c w).2 [Called who c]
  | Err e => Run (Return (Some e)) (oracle _ c w).2 [Called who c]
  end.
Proof.
  unfold try. rewrite bind_run, invoke_run. cbn.
  destruct (oracle _ c w) as [[a|e] w']; cbn; by rewrite ?app_nil_r.
Qed.

Lemma omap_None {A B} (f : A → option B) l :
  Forall (λ x, f x = None) l → omap f l = [].
Proof. induction 1 as [|x l Hx _ IH]; [done|]. cbn. by rewrite Hx. Qed.

(** *** Events of one kind only *)

Section Only.

Context (P : event → Prop).

Lemma only_ret {A} (a : A) : only P (mret a).
Proof. intros w. constructor. Qed.

Lemma only_returns {A} e : only P (returns (A := A) e).
Proof. intros w. constructor. Qed.

Lemma only_panic {A} msg : only P (panic (A := A) msg).
Proof. intros w. constructor. Qed.

Lemma only_emit ev : P ev → only P (emit ev).
Proof. intros H w. by repeat constructor. Qed.

Lemma only_invoke {R} who (c : call R) : P (Called who c) → only P (invoke who c).
Proof. intros H w. rewrite invoke_run. by repeat constructor. Qed.

Lemma only_bind {A B} (m : M A) (k : A → M B) :
  only P m → (∀ a, only P (k a)) → only P (m ≫= k).
Proof.
  intros Hm Hk w. rewrite bind_run. specialize (Hm w).
  destruct (res (m w)); cbn; [|done..].
  apply Forall_app. split; [done|apply Hk].
Qed.

Lemma only_try {A} (m : M (Result A)) : only P m → only P (try m).
Proof.
  intros Hm. apply only_bind; [done|].
  intros [a|e]; [apply only_ret|apply only_returns].
Qed.

Lemma only_check (m : M (option error)) : only P m → only P (check m).
Proof.
  intros Hm. apply only_bind; [done|].
  intros [e|]; [apply only_returns|apply only_ret].
Qed.

Lemma only_defer {A} (d : M (option error)) (body : M A) :
  only P d → only P body → only P (defer d body).
Proof. intros Hd Hb w. apply Forall_app. split; [apply Hb|apply Hd]. Qed.

End Only.

(** One step through a program text. *)
Ltac only_step :=
  lazymatch goal with
  | |- only _ (mbind _ _) => apply only_bind; [|intros ?]
  | |- only _ (mret _) => apply only_ret
  | |- only _ (returns _) => apply only_returns
  | |- only _ (panic _) => apply only_panic
  | |- only _ (try _) => apply only_try
  | |- only _ (check _) => apply only_check
  | |- only _ (invoke _ _) => apply only_invoke
  | |- only _ (emit _) => apply only_emit
  | |- only _ (match ?x with _ => _ end) => destruct x eqn:?
  end.

Ltac event_facts :=
  solve [ unfold removesOutputOnly, calm, plain; cbn;
          repeat split; intros; simplify_eq/=; eauto ].

Section OnlyLoops.

Context (P : event → Prop).

Lemma only_rejectMain pkgs : only P (rejectMain pkgs).
Proof. induction pkgs; cbn [rejectMain]; repeat only_step; done. Qed.

Lemma only_writeMain flags file args :
  (∀ g, P (Called Main (WriteFile flags file g))) → only P (writeMain flags file args).
Proof. intros H. unfold writeMain. cbv zeta. repeat only_step; done. Qed.

Lemma only_copyIosEntries flags pkg dir files :
  (∀ dst src, P (Called Main (CopyDirContents flags dst src))) →
  only P (copyIosEntries flags pkg dir files).
Proof.
  intros H. induction files; cbn [copyIosEntries]; repeat only_step; done.
Qed.

Lemma only_copyIosDirs flags dir pkgs :
  (∀ d, P (Called Main (ReadDir d))) →
  (∀ dst src, P (Called Main (CopyDirContents flags dst src))) →
  only P (copyIosDirs flags dir pkgs).
Proof.
  intros H1 H2. induction pkgs; cbn [copyIosDirs]; repeat only_step;
    try done; by apply only_copyIosEntries.
Qed.

Lemma only_addEnv targets key mk envs :
  P (Called Main mk) → only P (addEnv targets key mk envs).
Proof. intros H. unfold addEnv. repeat only_step; done. Qed.

Lemma only_iosEnvs flags targets :
  P (Called Main (DarwinArmEnv flags)) → P (Called Main (DarwinArm64Env flags)) →
  P (Called Main (Darwin386Env flags)) → P (Called Main (DarwinAmd64Env flags)) →
  only P (iosEnvs flags targets).
Proof.
  intros. unfold iosEnvs. repeat only_step; by apply only_addEnv.
Qed.

Lemma only_buildArchive flags mainPath tempdir gopathDir env gopath :
  (∀ e a, P (Called (Goroutine env)
               (GoBuild flags mainPath e iosContext tempdir a))) →
  only P (buildArchive flags mainPath tempdir gopathDir env gopath).
Proof. intros H. unfold buildArchive. cbv zeta. repeat only_step; done. Qed.

Section Goroutines.

Context (flags : Flags) (mainPath tempdir gopathDir : string).
Context (Hgetenv : ∀ env k, P (Called (Goroutine env) (OsGetenv k))).
Context (Hbuild : ∀ env e a,
           P (Called (Goroutine env)
                (GoBuild flags mainPath e iosContext tempdir a))).

Lemma only_goroutine_step g : only P (step flags mainPath tempdir gopathDir g).
Proof.
  destruct g; cbn [step]; repeat only_step; try done.
  by apply only_buildArchive.
Qed.

Lemma only_finish g : only P (finish flags mainPath tempdir gopathDir g).
Proof.
  destruct g; cbn [finish]; repeat only_step; try done;
    by apply only_buildArchive.
Qed.

Lemma only_yield fuel p :
  (∀ n, P (Called Main (Preempt n))) →
  only P (yield flags mainPath tempdir gopathDir fuel p).
Proof.
  intros H. revert p. induction fuel as [|fuel IH]; intros p; cbn [yield];
    cbv zeta; repeat only_step; try done.
  apply only_goroutine_step.
Qed.

Lemma only_meanwhile p :
  (∀ n, P (Called Main (Preempt n))) →
  only P (meanwhile flags mainPath tempdir gopathDir p).
Proof. apply only_yield. Qed.

Lemma only_dispatch p envs :
  (∀ n, P (Called Main (Preempt n))) → (∀ env, P (Go env)) →
  only P (dispatch flags mainPath tempdir gopathDir p envs).
Proof.
  intros H1 H2. revert p. induction envs; intros p; cbn [dispatch];
    repeat only_step; try done. by apply only_meanwhile.
Qed.

Lemma only_receive p :
  (∀ n, P (Called Main (Schedule n))) → (∀ msg, P (Recv msg)) →
  only P (receive flags mainPath tempdir gopathDir p).
Proof.
  intros H1 H2. unfold receive. cbv zeta. repeat only_step; try done.
  apply only_finish.
Qed.

End Goroutines.

Lemma only_androidBuilds flags tempdir gopathDir gomobpath androidDir mainPath archs :
  (∀ p, P (Called Main (GetAndroidEnv p))) →
  (∀ k, P (Called Main (OsGetenv k))) →
  (∀ e a, P (Called Main (GoBuild flags mainPath e androidContext tempdir a))) →
  only P (androidBuilds flags tempdir gopathDir gomobpath androidDir mainPath archs).
Proof.
  intros H1 H2 H3. induction archs; cbn [androidBuilds]; cbv zeta;
    repeat only_step; done.
Qed.

End OnlyLoops.

Lemma only_impl (P Q : event → Prop) {A} (m : M A) :
  (∀ ev, P ev → Q ev) → only P m → only Q m.
Proof. intros H Hm w. eapply Forall_impl; [apply Hm|done]. Qed.

(** Walking through the text of a block. *)
Ltac only_walk :=
  repeat first
    [ only_step
    | apply only_rejectMain
    | apply only_writeMain; intros
    | apply only_copyIosDirs; intros
    | apply only_iosEnvs
    | apply only_meanwhile; intros
    | apply only_dispatch; intros
    | apply only_receive; intros
    | apply only_androidBuilds; intros ];
  try event_facts.

(** *** The blocks that neither dispatch nor await builds *)

Lemma calm_header flags dst d h :
  negb (BuildBinary flags) = true → h ∈ supportHeaders →
  calm flags (Called Main (CopyFile flags dst (filepath_Join [d; h])))
  ∧ plain (Called Main (CopyFile flags dst (filepath_Join [d; h]))).
Proof.
  intros Hb Hh. split; [|done]. split_and!; try done.
  intros ?? [= <- <-]. split; [|by eauto].
  by destruct (BuildBinary flags).
Qed.

Lemma only_prelude flags args :
  only (λ ev, calm flags ev ∧ plain ev) (prelude flags args).
Proof. unfold prelude. cbv zeta. only_walk. Qed.

Lemma only_iosPrepare flags args tempdir cmdPath pkgs targets :
  only (λ ev, calm flags ev ∧ plain ev)
       (iosPrepare flags args tempdir cmdPath pkgs targets).
Proof.
  unfold iosPrepare. cbv zeta. only_walk;
    (apply calm_header; [done|unfold supportHeaders; set_solver]).
Qed.

Lemma only_bindAndroid flags args tempdir cmdPath pkgs targets :
  only (λ ev, plain ev ∧ failedRecv ev = None ∧ removed ev = None)
       (bindAndroid flags args tempdir cmdPath pkgs targets).
Proof. unfold bindAndroid. cbv zeta. only_walk. Qed.

(** *** The build goroutine and the receive *)

Lemma only_collect (P : event → Prop) flags mainPath tempdir gopathDir n p archs :
  (∀ env k, P (Called (Goroutine env) (OsGetenv k))) →
  (∀ env e a, P (Called (Goroutine env)
                   (GoBuild flags mainPath e iosContext tempdir a))) →
  (∀ n, P (Called Main (Preempt n))) →
  (∀ n, P (Called Main (Schedule n))) →
  (∀ msg, P (Recv msg)) →
  only P (collect flags mainPath tempdir gopathDir n p archs).
Proof.
  intros H1 H2 H3 H4 H5. revert p archs.
  induction n; intros p archs; cbn [collect]; only_walk; done.
Qed.

Lemma only_iosBuild_rm flags tempdir mainPath envs :
  only (removesOutputOnly flags) (iosBuild flags tempdir mainPath envs).
Proof.
  unfold iosBuild. cbv zeta. only_walk.
  apply only_collect; intros; event_facts.
Qed.

Lemma only_bindBody_rm flags args tempdir :
  only (removesOutputOnly flags) (bindBody flags args tempdir).
Proof.
  unfold bindBody, bindIOS. cbv zeta. only_walk.
  - eapply only_impl; [|apply only_prelude].
    intros ev [(_ & _ & _ & Hr & _) _] d. by rewrite Hr.
  - eapply only_impl; [|apply only_iosPrepare].
    intros ev [(_ & _ & _ & Hr & _) _] d. by rewrite Hr.
  - apply only_iosBuild_rm.
  - eapply only_impl; [|apply only_bindAndroid].
    intros ev (_ & _ & Hr) d. by rewrite Hr.
Qed.

(** C7: once [NewTmpDir] has returned the working directory, every way out of
    [Bind] (a [return] with or without error, or a panic) ends with
    [RemoveAll] on that directory when [BuildWork] is unset; when it is set,
    no cleanup is run: the only [RemoveAll] a run can contain is the one on
    the output directory.  When [NewTmpDir] fails there is nothing to
    remove and its error is returned. *)
Theorem Bind_cleanup flags args w :
  let o := Bind flags args w in
  match (oracle _ (NewTmpDir flags "") w).1 with
  | Err e => res o = Return (Some e) ∧ events o = [Called Main (NewTmpDir flags "")]
  | Ok tempdir =>
    if BuildWork flags
    then Forall (removesOutputOnly flags) (events o)
    else ∃ evs, events o = evs ++ [Called Main (RemoveAll flags tempdir)]
  end.
Proof.
  cbv zeta. unfold Bind, try. rewrite !bind_run, invoke_run. cbn.
  destruct (oracle _ (NewTmpDir flags "") w) as [[tempdir|e] w1]; cbn; [|done].
  destruct (BuildWork flags); cbn.
  - constructor; [by intros ? [=]|]. apply only_bindBody_rm.
  - unfold defer. cbn. rewrite invoke_run. cbn.
    eexists (_ :: _). by rewrite app_comm_cons.
Qed.

(** *** Failed builds *)

Lemma calm_not_failed flags ev : calm flags ev → failedRecv ev = None.
Proof. by intros [? _]. Qed.

Lemma pooled_mono flags mainPath tempdir gopathDir envs envs' ev :
  (∀ env, env ∈ envs → env ∈ envs') →
  pooled flags mainPath tempdir gopathDir envs ev →
  pooled flags mainPath tempdir gopathDir envs' ev.
Proof. intros H [?|(env & ? & ?)]; [by left|right]. exists env. auto. Qed.

Lemma goroutineCall_quiet flags mainPath tempdir gopathDir env ev :
  goroutineCall flags mainPath tempdir gopathDir env ev →
  calm flags ev ∧ plain ev ∧ spawned ev = None.
Proof. intros [->|(gopath & ->)]; split_and!; event_facts. Qed.

Lemma pooled_quiet flags mainPath tempdir gopathDir envs ev :
  pooled flags mainPath tempdir gopathDir envs ev →
  calm flags ev ∧ plain ev ∧ spawned ev = None.
Proof.
  intros [[n ->]|(env & _ & H)]; [split_and!; event_facts|].
  by eapply goroutineCall_quiet.
Qed.

Lemma failsFast_prefix flags mainPath tempdir gopathDir {A} (r : completion A) e1 e2 :
  Forall (calm flags) e1 →
  failsFast flags mainPath tempdir gopathDir r e2 →
  failsFast flags mainPath tempdir gopathDir r (e1 ++ e2).
Proof.
  intros H1 [H2|(pre & msg & e & env & rest & -> & ? & ? & ? & ? & ? & Hrest)].
  - left. apply Forall_app. split; [|done].
    eapply Forall_impl; [done|apply calm_not_failed].
  - right. exists (e1 ++ pre), msg, e, env, rest. rewrite app_assoc.
    split_and!; try done.
    + by apply Forall_app_2.
    + apply elem_of_app. by right.
    + eapply Forall_impl; [exact Hrest|]. intros ev. apply pooled_mono.
      intros x Hx. rewrite omap_app. apply elem_of_app. by right.
Qed.

Lemma FailsFast_prefix flags mainPath tempdir gopathDir {A B} (m : M A) (k : A → M B) :
  only (calm flags) m → (∀ a, FailsFast flags mainPath tempdir gopathDir (k a)) →
  FailsFast flags mainPath tempdir gopathDir (m ≫= k).
Proof.
  intros Hm Hk w. rewrite bind_run. specialize (Hm w).
  destruct (res (m w)) as [a| |]; cbn.
  - apply failsFast_prefix; [done|apply Hk].
  - left. eapply Forall_impl; [done|apply calm_not_failed].
  - left. eapply Forall_impl; [done|apply calm_not_failed].
Qed.

Lemma FailsFast_suffix flags mainPath tempdir gopathDir {A B} (m : M A) (k : A → M B) :
  FailsFast flags mainPath tempdir gopathDir m →
  (∀ a, only (λ ev, failedRecv ev = None) (k a)) →
  FailsFast flags mainPath tempdir gopathDir (m ≫= k).
Proof.
  intros Hm Hk w. rewrite bind_run. specialize (Hm w).
  destruct (res (m w)) as [a|e|msg] eqn:Hr; cbn.
  - left. apply Forall_app. split; [|apply Hk].
    by destruct Hm as [?|(? & ? & ? & ? & ? & _ & _ & [=] & _)].
  - destruct Hm as [?|(pre & msg & e' & env & rest & ? & ? & [= ->] & ?)];
      [by left|].
    right. by exists pre, msg, e', env, rest.
  - destruct Hm as [?|(? & ? & ? & ? & ? & _ & _ & [=] & _)]. by left.
Qed.

(** *** The goroutines *)

Section GoroutineRuns.

Context (flags : Flags) (mainPath tempdir gopathDir : string).

Lemma buildArchive_run env gopath w :
  ∃ msg,
    res (buildArchive flags mainPath tempdir gopathDir env gopath w) = Val msg
    ∧ sound tempdir (Sending env msg)
    ∧ Forall (goroutineCall flags mainPath tempdir gopathDir env)
             (events (buildArchive flags mainPath tempdir gopathDir env gopath w)).
Proof.
  unfold buildArchive. cbv zeta. rewrite bind_run, invoke_run. cbn.
  eexists. split_and!; [done..|].
  constructor; [|constructor]. right. by eexists.
Qed.

Lemma step_run g w :
  ∃ g',
    res (step flags mainPath tempdir gopathDir g w) = Val g'
    ∧ envOf g' = envOf g
    ∧ (sound tempdir g → sound tempdir g')
    ∧ Forall (goroutineCall flags mainPath tempdir gopathDir (envOf g))
             (events (step flags mainPath tempdir gopathDir g w)).
Proof.
  destruct g as [env|env gopath|env msg]; cbn [step envOf].
  - rewrite bind_run, invoke_run. cbn. eexists. split_and!; [done..|].
    constructor; [by left|constructor].
  - rewrite bind_run.
    destruct (buildArchive_run env gopath w) as (msg & -> & Hs & Hev). cbn.
    eexists. split_and!; [done..|]. by rewrite app_nil_r.
  - eexists. split_and!; [done..|]. constructor.
Qed.

Lemma finish_run g w :
  sound tempdir g →
  ∃ msg,
    res (finish flags mainPath tempdir gopathDir g w) = Val msg
    ∧ sound tempdir (Sending (envOf g) msg)
    ∧ Forall (goroutineCall flags mainPath tempdir gopathDir (envOf g))
             (events (finish flags mainPath tempdir gopathDir g w)).
Proof.
  intros Hg. destruct g as [env|env gopath|env msg]; cbn [finish envOf].
  - rewrite bind_run, invoke_run. cbn.
    match goal with
    | |- context [buildArchive _ _ _ _ env ?gp ?w'] =>
      destruct (buildArchive_run env gp w') as (msg & -> & Hs & Hev)
    end.
    exists msg. split; [done|]. split; [exact Hs|]. cbn.
    constructor; [by left|done].
  - apply buildArchive_run.
  - eexists. split_and!; [done..|]. constructor.
Qed.

Lemma yield_run fuel (p : pool) w :
  ∃ p' : pool,
    res (yield flags mainPath tempdir gopathDir fuel p w) = Val p'
    ∧ envOf <$> p' = envOf <$> p
    ∧ (Forall (sound tempdir) p → Forall (sound tempdir) p')
    ∧ Forall (pooled flags mainPath tempdir gopathDir (envOf <$> p))
             (events (yield flags mainPath tempdir gopathDir fuel p w)).
Proof.
  revert p w. induction fuel as [|fuel IH]; intros p w; cbn [yield].
  { exists p. split_and!; [done..|constructor]. }
  rewrite bind_run, invoke_run. cbn.
  assert (pooled flags mainPath tempdir gopathDir (envOf <$> p)
            (Called Main (Preempt (length p)))) as Hp by (left; by eexists).
  destruct ((oracle _ (Preempt (length p)) w).1) as [|i]; cbn.
  { exists p. split_and!; [done..|]. constructor; [exact Hp|constructor]. }
  destruct (p !! (i `mod` length p)) as [g|] eqn:Hk; cbn.
  2:{ exists p. split_and!; [done..|]. constructor; [exact Hp|constructor]. }
  rewrite bind_run.
  destruct (step_run g (oracle _ (Preempt (length p)) w).2)
    as (g' & -> & Henv & Hs & Hev).
  cbn.
  match goal with
  | |- context [yield _ _ _ _ fuel ?q ?w'] =>
    destruct (IH q w') as (p' & -> & Henvs & Hss & Hevs)
  end.
  unfold pool in *.
  assert (envOf <$> <[i `mod` length p := g']> p = envOf <$> p) as Hsame.
  { rewrite list_fmap_insert, Henv. apply list_insert_id.
    by rewrite list_lookup_fmap, Hk. }
  rewrite Hsame in Henvs, Hevs.
  exists p'. split_and!; [done..| |].
  - intros Hall. apply Hss. apply Forall_insert; [done|].
    apply Hs. by eapply Forall_lookup_1.
  - constructor; [done|]. apply Forall_app_2; [|done].
    eapply Forall_impl; [exact Hev|]. intros ev Hc. right. exists (envOf g).
    split; [|done]. apply list_elem_of_fmap_2. by eapply list_elem_of_lookup_2.
Qed.

Lemma meanwhile_run (p : pool) w :
  ∃ p' : pool,
    res (meanwhile flags mainPath tempdir gopathDir p w) = Val p'
    ∧ envOf <$> p' = envOf <$> p
    ∧ (Forall (sound tempdir) p → Forall (sound tempdir) p')
    ∧ Forall (pooled flags mainPath tempdir gopathDir (envOf <$> p))
             (events (meanwhile flags mainPath tempdir gopathDir p w)).
Proof. apply yield_run. Qed.

(** The loop of the [go] statements: it starts one goroutine per
    environment, in order, and receives nothing. *)
Lemma dispatch_run (p : pool) envs w :
  ∃ p' : pool,
    res (dispatch flags mainPath tempdir gopathDir p envs w) = Val p'
    ∧ envOf <$> p' = (envOf <$> p) ++ envs
    ∧ (Forall (sound tempdir) p → Forall (sound tempdir) p')
    ∧ omap spawned (events (dispatch flags mainPath tempdir gopathDir p envs w))
      = envs
    ∧ Forall (λ ev, calm flags ev ∧ plain ev)
             (events (dispatch flags mainPath tempdir gopathDir p envs w)).
Proof.
  revert p w. induction envs as [|env envs IH]; intros p w; cbn [dispatch].
  { exists p. rewrite app_nil_r. split_and!; [done..|constructor]. }
  rewrite bind_run. cbn. rewrite bind_run.
  destruct (meanwhile_run (p ++ [Started env]) w) as (p1 & -> & Henv1 & Hs1 & Hev1).
  cbn.
  destruct (IH p1 (final (meanwhile flags mainPath tempdir gopathDir
                            (p ++ [Started env]) w)))
    as (p' & -> & Henv & Hs & Hsp & Hev).
  exists p'. split_and!.
  - done.
  - rewrite Henv, Henv1, fmap_app. cbn. by rewrite <- app_assoc.
  - intros Hp. apply Hs, Hs1. apply Forall_app_2; [done|]. by repeat constructor.
  - cbn. rewrite omap_app, Hsp, omap_None; [done|].
    eapply Forall_impl; [exact Hev1|].
    intros ev Hq. by apply pooled_quiet in Hq as (_ & _ & ?).
  - constructor; [split; event_facts|]. apply Forall_app_2; [|done].
    eapply Forall_impl; [exact Hev1|].
    intros ev Hq. by apply pooled_quiet in Hq as (? & ? & _).
Qed.

Lemma receive_run (p : pool) w :
  Forall (sound tempdir) p →
  let o := receive flags mainPath tempdir gopathDir p w in
  (p = [] ∧ (∃ msg, res o = Panic msg)
   ∧ events o = [Called Main (Schedule (length p))])
  ∨ ∃ k g msg evs,
      p !! k = Some g ∧ res o = Val (msg, delete k p)
      ∧ events o = Called Main (Schedule (length p)) :: evs ++ [Recv msg]
      ∧ sound tempdir (Sending (envOf g) msg)
      ∧ Forall (goroutineCall flags mainPath tempdir gopathDir (envOf g)) evs.
Proof.
  intros Hp. cbv zeta. unfold receive. cbv zeta.
  rewrite bind_run, invoke_run. cbn.
  set (s := oracle _ (Schedule (length p)) w).
  destruct (p !! (s.1 `mod` length p)) as [g|] eqn:Hk.
  - right. rewrite bind_run.
    destruct (finish_run g s.2) as (msg & Hres & Hs & Hev);
      [by eapply Forall_lookup_1|].
    rewrite Hres. cbn.
    exists (s.1 `mod` length p), g, msg,
      (events (finish flags mainPath tempdir gopathDir g s.2)).
    split; [done|]. split; [done|]. split; [|split; [exact Hs|exact Hev]].
    reflexivity.
  - left. destruct p as [|g p]; [by eauto|]. exfalso.
    apply lookup_ge_None_1 in Hk.
    pose proof (Nat.mod_upper_bound s.1 (length (g :: p))) as Hlt.
    cbn in *. lia.
Qed.

(** The receive loop: all its events are calm, or it stops at the first
    failed message, sent by one of the pending goroutines, and after it only
    pending goroutines go on. *)
Lemma collect_shape n (p : pool) archs w :
  Forall (sound tempdir) p →
  let o := collect flags mainPath tempdir gopathDir n p archs w in
  Forall (calm flags) (events o)
  ∨ ∃ pre msg e env rest,
      events o = pre ++ Recv msg :: rest ∧ err msg = Some e
      ∧ res o = Return (Some e) ∧ Forall (calm flags) pre
      ∧ env ∈ envOf <$> p ∧ arch msg = Getenv env "GOARCH"
      ∧ Forall (pooled flags mainPath tempdir gopathDir (envOf <$> p)) rest.
Proof.
  cbv zeta. revert p archs w.
  induction n as [|n IH]; intros p archs w Hp; cbn [collect]; [by left|].
  rewrite bind_run.
  destruct (receive_run p w Hp)
    as [(-> & [m Hres] & Hev)|(k & g & msg & evs & Hk & Hres & Hev & Hs & Hg)];
    cbv zeta in *; rewrite Hres, Hev; cbn.
  { left. constructor; [event_facts|constructor]. }
  set (w1 := final (receive flags mainPath tempdir gopathDir p w)).
  rewrite bind_run.
  assert (Forall (sound tempdir) (delete k p)) as Hp1.
  { apply Forall_forall. intros x Hx. eapply Forall_forall; [exact Hp|].
    unfold pool in *. by eapply list_elem_of_delete_inv. }
  assert (∀ env, env ∈ envOf <$> delete k p → env ∈ envOf <$> p) as Hsub.
  { intros env (x & -> & Hx)%list_elem_of_fmap. apply list_elem_of_fmap_2.
    unfold pool in *. by eapply list_elem_of_delete_inv. }
  destruct (meanwhile_run (delete k p) w1) as (p2 & Hres2 & Henv2 & Hs2 & Hev2).
  rewrite Hres2. cbn.
  set (sched := Called Main (Schedule (length p))).
  assert (calm flags sched) as Hsched by event_facts.
  assert (Forall (calm flags) evs) as Hevs.
  { eapply Forall_impl; [exact Hg|]. intros ev Hc.
    by apply goroutineCall_quiet in Hc as (? & _). }
  assert (Forall (calm flags)
            (events (meanwhile flags mainPath tempdir gopathDir (delete k p) w1)))
    as Hcalm2.
  { eapply Forall_impl; [exact Hev2|]. intros ev Hq.
    by apply pooled_quiet in Hq as (? & _). }
  assert (Forall (pooled flags mainPath tempdir gopathDir (envOf <$> p))
            (events (meanwhile flags mainPath tempdir gopathDir (delete k p) w1)))
    as Hpool2.
  { eapply Forall_impl; [exact Hev2|]. intros ev. by apply pooled_mono. }
  set (e2 := events (meanwhile flags mainPath tempdir gopathDir (delete k p) w1))
    in *.
  destruct (err msg) as [e|] eqn:He; cbn.
  - right. exists (sched :: evs), msg, e, (envOf g), e2. rewrite app_nil_r.
    split; [by rewrite <- app_assoc|]. split; [exact He|].
    split; [reflexivity|]. split; [by constructor|].
    split; [apply list_elem_of_fmap_2; by eapply list_elem_of_lookup_2|].
    split; [apply Hs|exact Hpool2].
  - assert (calm flags (Recv msg)) as Hm by (unfold calm; cbn; by rewrite He).
    assert (Forall (calm flags) ((sched :: evs ++ [Recv msg]) ++ e2)) as Hpre.
    { apply Forall_app_2; [|exact Hcalm2].
      constructor; [exact Hsched|]. apply Forall_app_2; [exact Hevs|].
      by constructor. }
    match goal with
    | |- context [collect _ _ _ _ n p2 ?a ?w'] =>
      destruct (IH p2 a w' (Hs2 Hp1))
        as [Hall|(pre & msg' & e & env' & rest & Hev' & He' & Hres' & Hpre'
                  & Hin & Harch' & Hrest)]
    end.
    + left. rewrite app_comm_cons, app_assoc. by apply Forall_app_2.
    + right. rewrite Henv2 in Hin, Hrest.
      exists (((sched :: evs ++ [Recv msg]) ++ e2) ++ pre), msg', e, env', rest.
      split; [rewrite Hev'; cbn; by rewrite <- !app_assoc|]. split; [exact He'|].
      split; [exact Hres'|]. split; [by apply Forall_app_2|].
      split; [by apply Hsub|]. split; [exact Harch'|].
      eapply Forall_impl; [exact Hrest|]. intros ev. by apply pooled_mono.
Qed.

(** Nothing in the two loops but starts, receipts, the scheduler and the
    calls of the goroutines. *)
Lemma dispatch_events (p : pool) envs w :
  Forall (λ ev, (∃ env, ev = Go env)
                ∨ pooled flags mainPath tempdir gopathDir ((envOf <$> p) ++ envs) ev)
         (events (dispatch flags mainPath tempdir gopathDir p envs w)).
Proof.
  revert p w. induction envs as [|env envs IH]; intros p w; cbn [dispatch].
  { constructor. }
  rewrite bind_run. cbn. rewrite bind_run.
  destruct (meanwhile_run (p ++ [Started env]) w) as (p1 & -> & Henv1 & Hs1 & Hev1).
  cbn.
  specialize (IH p1 (final (meanwhile flags mainPath tempdir gopathDir
                              (p ++ [Started env]) w))).
  rewrite Henv1, fmap_app in IH. cbn in IH. rewrite <- app_assoc in IH.
  constructor; [left; by eexists|]. apply Forall_app_2; [|exact IH].
  eapply Forall_impl; [exact Hev1|]. intros ev Hq. right.
  eapply pooled_mono; [|exact Hq]. intros x. rewrite fmap_app. cbn.
  rewrite !elem_of_app, !elem_of_cons, elem_of_nil. tauto.
Qed.

Lemma collect_events n (p : pool) archs w :
  Forall (sound tempdir) p →
  Forall (λ ev, (∃ k, ev = Called Main (Schedule k)) ∨ (∃ msg, ev = Recv msg)
                ∨ pooled flags mainPath tempdir gopathDir (envOf <$> p) ev)
         (events (collect flags mainPath tempdir gopathDir n p archs w)).
Proof.
  revert p archs w.
  induction n as [|n IH]; intros p archs w Hp; cbn [collect]; [constructor|].
  rewrite bind_run.
  destruct (receive_run p w Hp)
    as [(-> & [m Hres] & Hev)|(k & g & msg & evs & Hk & Hres & Hev & Hs & Hg)];
    cbv zeta in *; rewrite Hres, Hev; cbn.
  { constructor; [left; by eexists|constructor]. }
  set (w1 := final (receive flags mainPath tempdir gopathDir p w)).
  rewrite bind_run.
  assert (Forall (sound tempdir) (delete k p)) as Hp1.
  { apply Forall_forall. intros x Hx. eapply Forall_forall; [exact Hp|].
    unfold pool in *. by eapply list_elem_of_delete_inv. }
  assert (∀ env, env ∈ envOf <$> delete k p → env ∈ envOf <$> p) as Hsub.
  { intros env (x & -> & Hx)%list_elem_of_fmap. apply list_elem_of_fmap_2.
    unfold pool in *. by eapply list_elem_of_delete_inv. }
  destruct (meanwhile_run (delete k p) w1) as (p2 & Hres2 & Henv2 & Hs2 & Hev2).
  rewrite Hres2. cbn.
  set (e2 := events (meanwhile flags mainPath tempdir gopathDir (delete k p) w1))
    in *.
  assert (Forall (λ ev, (∃ k, ev = Called Main (Schedule k)) ∨ (∃ msg, ev = Recv msg)
                ∨ pooled flags mainPath tempdir gopathDir (envOf <$> p) ev)
            ((evs ++ [Recv msg]) ++ e2)) as Hhead.
  { apply Forall_app_2; [apply Forall_app_2|].
    - eapply Forall_impl; [exact Hg|]. intros ev Hc. right. right. right.
      exists (envOf g). split; [|done].
      apply list_elem_of_fmap_2. by eapply list_elem_of_lookup_2.
    - constructor; [|constructor]. right. left. by eexists.
    - eapply Forall_impl; [exact Hev2|]. intros ev Hq. right. right.
      by eapply pooled_mono. }
  constructor; [left; by eexists|].
  destruct (err msg) as [e|]; cbn.
  - by rewrite app_nil_r.
  - rewrite app_assoc. apply Forall_app_2; [exact Hhead|].
    match goal with
    | |- context [collect _ _ _ _ n p2 ?a ?w'] =>
      specialize (IH p2 a w' (Hs2 Hp1))
    end.
    rewrite Henv2 in IH. eapply Forall_impl; [exact IH|].
    intros ev [?|[?|Hq]]; [by left|by right; left|right; right].
    by eapply pooled_mono.
Qed.

End GoroutineRuns.

Lemma iosBuild_FailsFast flags tempdir mainPath envs :
  FailsFast flags mainPath tempdir (filepath_Join [tempdir; "IOS-GOPATH"])
    (iosBuild flags tempdir mainPath envs).
Proof.
  intros w. unfold iosBuild. cbv zeta. rewrite bind_run.
  destruct (dispatch_run flags mainPath tempdir
              (filepath_Join [tempdir; "IOS-GOPATH"]) [] envs w)
    as (p & Hres & Henv & Hs & Hsp & Hev).
  rewrite Hres. cbn [res]. cbv zeta.
  set (e1 := events (dispatch _ _ _ _ _ _ _)) in *.
  set (w1 := final (dispatch _ _ _ _ _ _ _)) in *.
  assert (Forall (calm flags) e1) as Hcalm1.
  { eapply Forall_impl; [exact Hev|]. by intros ev [? _]. }
  match goal with
  | |- context [mbind ?k (collect _ _ _ _ ?n p ?a)] =>
    pose proof (collect_shape flags mainPath tempdir
                  (filepath_Join [tempdir; "IOS-GOPATH"]) n p a w1
                  (Hs (Forall_nil_2 _))) as Hc;
    assert (∀ x, only (λ ev, failedRecv ev = None) (k x)) as Hk
      by (intros x; only_walk)
  end.
  cbv zeta in Hc. rewrite bind_run. cbn [events].
  destruct Hc as [Hall|(pre & msg & e & env & rest & Hev' & He & Hres' & Hpre
                        & Hin & Ha & Hrest)].
  - left.
    pose proof (Forall_impl _ _ _ Hcalm1 (calm_not_failed flags)) as Hgo'.
    pose proof (Forall_impl _ _ _ Hall (calm_not_failed flags)) as Hall'.
    destruct (res (collect _ _ _ _ _ _ _ _)); cbn;
      repeat (apply Forall_app_2); try done. apply Hk.
  - rewrite Hres'. cbn. rewrite Hev'. right.
    rewrite Henv in Hin, Hrest. cbn in Hin, Hrest.
    exists (e1 ++ pre), msg, e, env, rest.
    split; [by rewrite app_assoc|]. split; [exact He|]. split; [reflexivity|].
    split; [by apply Forall_app_2|].
    assert (∀ x, x ∈ envs → x ∈ omap spawned (e1 ++ pre)) as Hsub.
    { intros x Hx. rewrite omap_app, Hsp. apply elem_of_app. by left. }
    split; [|split; [exact Ha|]].
    + apply Hsub in Hin. apply list_elem_of_omap in Hin as (ev & Hev1 & Hsome).
      destruct ev; cbn in Hsome; simplify_eq. done.
    + eapply Forall_impl; [exact Hrest|]. intros ev. by apply pooled_mono.
Qed.

Lemma FailsFast_bindBody flags args tempdir :
  FailsFast flags (filepath_Join [tempdir; "src"; "iosbin"; "main.go"]) tempdir
    (filepath_Join [tempdir; "IOS-GOPATH"]) (bindBody flags args tempdir).
Proof.
  unfold bindBody. cbv zeta. apply FailsFast_prefix.
  { eapply only_impl; [|apply only_prelude]. by intros ev [? _]. }
  intros [pkgs cmdPath]. apply FailsFast_suffix.
  - case_decide.
    + unfold bindIOS. apply FailsFast_prefix.
      * eapply only_impl; [|apply only_iosPrepare]. by intros ev [? _].
      * intros envs. apply iosBuild_FailsFast.
    + intros w. by left.
  - intros []. only_walk.
    eapply only_impl; [|apply only_bindAndroid]. by intros ev (_ & ? & _).
Qed.

(** Two ways of cutting a list at an element that violates [P] coincide when
    one of them has only elements satisfying [P] on both sides. *)
Lemma cut_unique {A} (P : A → Prop) l1 x l2 l1' x' l2' :
  l1 ++ x :: l2 = l1' ++ x' :: l2' → Forall P l1' → Forall P l2' → ¬ P x →
  l1 = l1' ∧ x = x' ∧ l2 = l2'.
Proof.
  revert l1. induction l1' as [|a l1' IH]; intros l1 Heq H1 H2 Hx.
  - destruct l1 as [|y l1]; cbn in Heq; simplify_eq; [done|].
    exfalso. apply Hx. rewrite Forall_app, Forall_cons in H2. tauto.
  - apply Forall_cons in H1 as [Ha H1].
    destruct l1 as [|y l1]; cbn in Heq; simplify_eq; [done|].
    destruct (IH l1) as (-> & -> & ->); done.
Qed.

(** C1: when a build goroutine's message carries an error, [Bind] returns
    that error at once.  The message is that of a goroutine [Bind] started;
    nothing before its receipt has run [lipo] or touched the output
    location, and the results received before it are used for nothing.
    After it [Bind] awaits no further result and does nothing but the
    deferred removal of the working directory: whatever else happens until
    then is the other goroutines going on with their own builds, which
    [Bind] neither stops nor waits for. *)
Theorem Bind_returns_first_build_error flags args w pre msg post e :
  events (Bind flags args w) = pre ++ Recv msg :: post →
  err msg = Some e →
  res (Bind flags args w) = Return (Some e)
  ∧ Forall (calm flags) pre
  ∧ (∃ env, Go env ∈ pre ∧ arch msg = Getenv env "GOARCH")
  ∧ ∃ tempdir rest,
      post = rest ++ (if BuildWork flags then []
                      else [Called Main (RemoveAll flags tempdir)])
      ∧ Forall (straggler flags tempdir pre) rest.
Proof.
  intros Hev He.
  assert (¬ failedRecv (Recv msg) = None) as Hfail by (cbn; by rewrite He).
  assert (∀ l, Forall (λ ev, failedRecv ev = None) l →
               l ≠ pre ++ Recv msg :: post) as Hno.
  { intros l Hl ->. rewrite Forall_app, Forall_cons in Hl. tauto. }
  revert Hev. unfold Bind, try. rewrite !bind_run, invoke_run. cbn.
  destruct (oracle _ (NewTmpDir flags "") w) as [[tempdir|e0] w1]; cbn.
  2:{ intros Hev. exfalso. eapply Hno; [|done]. by repeat constructor. }
  assert (calm flags (Called Main (NewTmpDir flags ""))) as Hc by event_facts.
  pose proof (FailsFast_bindBody flags args tempdir w1) as Hb.
  set (tmp := Called Main (NewTmpDir flags "")) in *.
  assert (∀ (B : bool) evs,
    evs = events (bindBody flags args tempdir w1)
          ++ (if B then [] else [Called Main (RemoveAll flags tempdir)]) →
    tmp :: evs = pre ++ Recv msg :: post →
    res (bindBody flags args tempdir w1) = Return (Some e)
    ∧ Forall (calm flags) pre
    ∧ (∃ env, Go env ∈ pre ∧ arch msg = Getenv env "GOARCH")
    ∧ ∃ rest,
        post = rest ++ (if B then [] else [Called Main (RemoveAll flags tempdir)])
        ∧ Forall (straggler flags tempdir pre) rest) as Hmain.
  { intros B evs -> Hev.
    destruct Hb as [Hall|(pre' & msg' & e' & env & rest & Hev' & He' & Hres
                          & Hpre & Hin & Ha & Hrest)].
    { exfalso. eapply Hno; [|done].
      constructor; [exact (calm_not_failed flags _ Hc)|].
      apply Forall_app_2; [done|]. destruct B; by repeat constructor. }
    rewrite Hev', <- app_assoc in Hev. cbn in Hev. symmetry in Hev.
    apply (cut_unique (λ ev, failedRecv ev = None) pre (Recv msg) post
             (tmp :: pre') (Recv msg')
             (rest ++ (if B then [] else [Called Main (RemoveAll flags tempdir)])))
      in Hev as (-> & [= ->] & ->); [| | |done].
    - rewrite Hres. rewrite He in He'. simplify_eq.
      split; [done|]. split; [by constructor|]. split.
      + exists env. split; [|done]. by apply elem_of_cons; right.
      + exists rest. split; [done|]. exact Hrest.
    - constructor; [exact (calm_not_failed flags _ Hc)|].
      exact (Forall_impl _ _ _ Hpre (calm_not_failed flags)).
    - apply Forall_app_2.
      + eapply Forall_impl; [exact Hrest|]. intros ev Hq.
        apply pooled_quiet in Hq as (Hq & _). by apply calm_not_failed in Hq.
      + destruct B; by repeat constructor. }
  destruct (BuildWork flags); cbn.
  - intros Hev.
    destruct (Hmain true _ (eq_sym (app_nil_r _)) Hev) as (? & ? & ? & rest & ? & ?).
    split_and!; [done..|]. by exists tempdir, rest.
  - unfold defer. cbn. rewrite invoke_run. cbn. intros Hev.
    destruct (Hmain false _ eq_refl Hev) as (? & ? & ? & rest & ? & ?).
    split_and!; [done..|]. by exists tempdir, rest.
Qed.

(** *** The merge command *)

Lemma lipoCommand_Args binaryPath archs :
  Args (lipoCommand binaryPath archs)
  = ["xcrun"; "lipo"; "-create"] ++ lipoInputs archs ++ ["-o"; binaryPath].
Proof.
  assert (∀ cmd,
    Args (foldl (λ cmd i,
            {| Args := Args cmd ++ ["-arch"; ArchClang (arch i); path i] |})
            cmd archs) = Args cmd ++ lipoInputs archs) as H.
  { induction archs as [|a archs IH]; intros cmd; cbn [foldl].
    - by rewrite app_nil_r.
    - rewrite IH. cbn [Args]. by rewrite <- app_assoc. }
  unfold lipoCommand. cbv zeta. cbn [Args]. rewrite H.
  by rewrite <- app_assoc.
Qed.

Lemma plain_omap evs :
  Forall plain evs → omap ranCmd evs = [] ∧ omap recvd evs = [].
Proof.
  induction 1 as [|ev evs (Hr & Hc) _ [IH1 IH2]]; [done|].
  cbn. by rewrite Hr, Hc.
Qed.

Lemma mergesAsReceived_prefix tempdir e1 e2 :
  Forall plain e1 → mergesAsReceived tempdir e2 →
  mergesAsReceived tempdir (e1 ++ e2).
Proof.
  intros [H1 H2]%plain_omap H. unfold mergesAsReceived in *.
  by rewrite !omap_app, H1, H2.
Qed.

Lemma mergesAsReceived_suffix tempdir e1 e2 :
  mergesAsReceived tempdir e1 → Forall plain e2 →
  mergesAsReceived tempdir (e1 ++ e2).
Proof.
  intros H [H1 H2]%plain_omap. unfold mergesAsReceived in *.
  by rewrite !omap_app, H1, H2, !app_nil_r.
Qed.

Lemma mergesAsReceived_plain tempdir evs :
  Forall plain evs → mergesAsReceived tempdir evs.
Proof. intros [H _]%plain_omap. by left. Qed.

Lemma merges_bind_prefix tempdir {A B} (m : M A) (k : A → M B) :
  only plain m → (∀ a w, mergesAsReceived tempdir (events (k a w))) →
  ∀ w, mergesAsReceived tempdir (events ((m ≫= k) w)).
Proof.
  intros Hm Hk w. rewrite bind_run. specialize (Hm w).
  destruct (res (m w)); cbn; [|by apply mergesAsReceived_plain..].
  by apply mergesAsReceived_prefix.
Qed.

Lemma merges_bind_suffix tempdir {A B} (m : M A) (k : A → M B) :
  (∀ w, mergesAsReceived tempdir (events (m w))) → (∀ a, only plain (k a)) →
  ∀ w, mergesAsReceived tempdir (events ((m ≫= k) w)).
Proof.
  intros Hm Hk w. rewrite bind_run. specialize (Hm w).
  destruct (res (m w)); cbn; [|done..].
  apply mergesAsReceived_suffix; [done|apply Hk].
Qed.

(** The receive loop runs no command, and the slice it returns is the one
    it was given followed by the messages in the order of their receipt. *)
Lemma collect_received flags mainPath tempdir gopathDir n (p : pool) archs w :
  Forall (sound tempdir) p →
  let o := collect flags mainPath tempdir gopathDir n p archs w in
  omap ranCmd (events o) = []
  ∧ ∀ archs', res o = Val archs' → archs' = archs ++ omap recvd (events o).
Proof.
  cbv zeta. revert p archs w.
  induction n as [|n IH]; intros p archs w Hp; cbn [collect].
  { split; [done|]. intros ? [= <-]. by rewrite app_nil_r. }
  rewrite bind_run.
  destruct (receive_run flags mainPath tempdir gopathDir p w Hp)
    as [(-> & [m Hres] & Hev)|(k & g & msg & evs & Hk & Hres & Hev & Hs & Hg)];
    cbv zeta in *; rewrite Hres, Hev; cbn; [done|].
  set (w1 := final (receive flags mainPath tempdir gopathDir p w)).
  rewrite bind_run.
  assert (Forall (sound tempdir) (delete k p)) as Hp1.
  { apply Forall_forall. intros x Hx. eapply Forall_forall; [exact Hp|].
    unfold pool in *. by eapply list_elem_of_delete_inv. }
  destruct (meanwhile_run flags mainPath tempdir gopathDir (delete k p) w1)
    as (p2 & Hres2 & Henv2 & Hs2 & Hev2).
  rewrite Hres2. cbn.
  set (e2 := events (meanwhile flags mainPath tempdir gopathDir (delete k p) w1))
    in *.
  assert (Forall plain evs) as Hevs.
  { eapply Forall_impl; [exact Hg|]. intros ev Hc.
    by apply goroutineCall_quiet in Hc as (_ & ? & _). }
  assert (Forall plain e2) as Hplain2.
  { eapply Forall_impl; [exact Hev2|]. intros ev Hq.
    by apply pooled_quiet in Hq as (_ & ? & _). }
  apply plain_omap in Hevs as [Hc1 Hr1]. apply plain_omap in Hplain2 as [Hc2 Hr2].
  destruct (err msg) as [e|] eqn:He; cbn.
  - rewrite app_nil_r, !omap_app, Hc1, Hc2. done.
  - match goal with
    | |- context [collect _ _ _ _ n p2 ?a ?w'] =>
      destruct (IH p2 a w' (Hs2 Hp1)) as [IH1 IH2]
    end.
    rewrite !omap_app, Hc1, Hc2, Hr1, Hr2, IH1. cbn. split; [done|].
    intros archs' Hres'. rewrite (IH2 _ Hres'). by rewrite <- app_assoc.
Qed.

Lemma iosBuild_merges flags tempdir mainPath envs w :
  mergesAsReceived tempdir (events (iosBuild flags tempdir mainPath envs w)).
Proof.
  unfold iosBuild. cbv zeta. rewrite bind_run.
  destruct (dispatch_run flags mainPath tempdir
              (filepath_Join [tempdir; "IOS-GOPATH"]) [] envs w)
    as (p & Hres & Henv & Hs & Hsp & Hev).
  rewrite Hres. cbn [res]. cbv zeta. cbn [events].
  apply mergesAsReceived_prefix.
  { eapply Forall_impl; [exact Hev|]. by intros ev [_ ?]. }
  set (w1 := final (dispatch _ _ _ _ _ _ _)) in *.
  match goal with
  | |- context [mbind _ (collect _ _ _ _ ?n p ?a)] =>
    pose proof (collect_received flags mainPath tempdir
                  (filepath_Join [tempdir; "IOS-GOPATH"]) n p a w1
                  (Hs (Forall_nil_2 _))) as [Hc Hr]
  end.
  rewrite bind_run.
  destruct (res (collect _ _ _ _ _ _ _ _)) as [archs| |] eqn:Hres'; cbn;
    [|by left..].
  rewrite (Hr _ eq_refl). cbn [app].
  set (rcv := omap recvd (events (collect _ _ _ _ _ _ _ _))) in *.
  rewrite bind_run, check_invoke_run.
  match goal with
  | |- context [oracle _ ?c ?w'] => destruct (oracle _ c w') as [[e|] w2]
  end; cbn.
  - right. rewrite !omap_app, Hc. cbn. by rewrite app_nil_r.
  - right.
    match goal with
    | |- context [events (?m w2)] =>
      assert (Forall plain (events (m w2))) as Hp by
        (apply (only_impl plain plain); [done|]; only_walk)
    end.
    apply plain_omap in Hp as [Hp1 Hp2]. cbn in Hp1, Hp2 |- *.
    rewrite !omap_app. cbn. by rewrite Hc, Hp1, Hp2, !app_nil_r.
Qed.

Lemma bindBody_merges flags args tempdir w :
  mergesAsReceived tempdir (events (bindBody flags args tempdir w)).
Proof.
  revert w. unfold bindBody. cbv zeta. apply merges_bind_prefix.
  { eapply only_impl; [|apply only_prelude]. by intros ev [_ ?]. }
  intros [pkgs cmdPath]. apply merges_bind_suffix.
  - case_decide.
    + unfold bindIOS. apply merges_bind_prefix.
      * eapply only_impl; [|apply only_iosPrepare]. by intros ev [_ ?].
      * intros envs w. apply iosBuild_merges.
    + intros w. by left.
  - intros []. only_walk.
    eapply only_impl; [|apply only_bindAndroid]. by intros ev (? & _).
Qed.

(** C2 (as amended): nothing sorts the results.  The [lipo] command line is
    ["xcrun lipo -create"], then ["-arch" name file] for each result in the
    order given, then ["-o" binary]; and the one [lipo] command a run of
    [Bind] issues is built from the messages in the order in which they
    were received. *)
Theorem lipo_arguments_follow_arrival_order :
  (∀ binaryPath archs,
     Args (lipoCommand binaryPath archs)
     = ["xcrun"; "lipo"; "-create"] ++ lipoInputs archs ++ ["-o"; binaryPath])
  ∧ ∀ flags args w,
      let evs := events (Bind flags args w) in
      omap ranCmd evs = []
      ∨ ∃ tempdir,
          omap ranCmd evs = [lipoCommand (binaryPathOf tempdir) (omap recvd evs)].
Proof.
  split; [apply lipoCommand_Args|]. intros flags args w. cbv zeta.
  unfold Bind, try. rewrite !bind_run, invoke_run. cbn.
  destruct (oracle _ (NewTmpDir flags "") w) as [[tempdir|e0] w1]; cbn;
    [|by left].
  pose proof (bindBody_merges flags args tempdir w1) as Hb.
  destruct (BuildWork flags); cbn.
  - destruct Hb as [Hb|Hb]; [by left|right]. by exists tempdir.
  - unfold defer. cbn. rewrite invoke_run. cbn.
    rewrite !omap_app. cbn. rewrite !app_nil_r.
    destruct Hb as [Hb|Hb]; [by left|right]. by exists tempdir.
Qed.

(** *** Who compiles *)

(** One turn of the Android loop. *)
Lemma androidBuilds_cons flags tempdir gopathDir gomobpath androidDir mainPath
    a archs w :
  androidBuilds flags tempdir gopathDir gomobpath androidDir mainPath (a :: archs) w =
  let r1 := oracle _ (GetAndroidEnv gomobpath) w in
  match r1.1 with
  | Err e => Run (Return (Some e)) r1.2 [Called Main (GetAndroidEnv gomobpath)]
  | Ok androidENV =>
    let r2 := oracle _ (OsGetenv "GOPATH") r1.2 in
    let build :=
      GoBuild flags mainPath
        (default [] (androidENV !! a)
           ++ ["GOPATH=" +:+ gopathDir +:+ ListSeparator +:+ r2.1])
        androidContext tempdir
        ["-buildmode=c-shared";
         "-o=" +:+ filepath_Join [androidDir;
                     "src/main/jniLibs/" +:+ GetAndroidABI a +:+ "/libgojni.so"]] in
    let r3 := oracle _ build r2.2 in
    let evs := [Called Main (GetAndroidEnv gomobpath);
                Called Main (OsGetenv "GOPATH"); Called Main build] in
    match r3.1 with
    | Some e => Run (Return (Some e)) r3.2 evs
    | None =>
      let o := androidBuilds flags tempdir gopathDir gomobpath androidDir
                 mainPath archs r3.2 in
      Run (res o) (final o) (evs ++ events o)
    end
  end.
Proof.
  cbn [androidBuilds]. cbv zeta. rewrite bind_run, try_invoke_run.
  destruct (oracle _ (GetAndroidEnv gomobpath) w) as [[androidENV|e] w1]; cbn;
    [|done].
  rewrite bind_run, invoke_run. cbn.
  destruct (oracle _ (OsGetenv "GOPATH") w1) as [gopath w2]. cbn.
  rewrite bind_run, check_invoke_run.
  match goal with
  | |- context [oracle _ ?c w2] => destruct (oracle _ c w2) as [[e|] w3]
  end; cbn; done.
Qed.

(** The Android loop, turn by turn. *)
Lemma androidBuilds_turns flags tempdir gopathDir gomobpath androidDir mainPath
    archs w :
  let o := androidBuilds flags tempdir gopathDir gomobpath androidDir mainPath
             archs w in
  final o = replay w (events o)
  ∧ ∃ turns tail,
      replies w (events o)
      = androidTurns flags tempdir gopathDir gomobpath androidDir mainPath
          archs turns ++ tail
      ∧ loopEnd gomobpath archs turns tail (res o).
Proof.
  cbv zeta. revert w. induction archs as [|a archs IH]; intros w.
  { split; [done|]. exists [], []. split; [done|]. left. by split_and!. }
  rewrite androidBuilds_cons. cbv zeta.
  destruct (oracle _ (GetAndroidEnv gomobpath) w) as [[m|e] w1] eqn:H1;
    cbn [res final events fst snd].
  2:{ split; [cbn; by rewrite H1|].
      exists [], [Reply Main (GetAndroidEnv gomobpath) (Err e)].
      split; [cbn; by rewrite H1|]. right. right. exists e.
      split_and!; [done|constructor|cbn; lia|done]. }
  destruct (oracle _ (OsGetenv "GOPATH") w1) as [gopath w2] eqn:H2.
  cbn [res final events fst snd].
  match goal with
  | |- context [oracle _ ?c w2] =>
    set (build := c); destruct (oracle _ build w2) as [r w3] eqn:H3
  end.
  set (t := {| turnEnv := m; turnGopath := gopath; outcome := r |}).
  assert (∀ evs,
    replay w ([Called Main (GetAndroidEnv gomobpath);
               Called Main (OsGetenv "GOPATH"); Called Main build] ++ evs)
    = replay w3 evs
    ∧ replies w ([Called Main (GetAndroidEnv gomobpath);
                  Called Main (OsGetenv "GOPATH"); Called Main build] ++ evs)
      = androidTurn flags tempdir gopathDir gomobpath androidDir mainPath a t
        ++ replies w3 evs) as Hhead.
  { intros evs. cbn. rewrite H1. cbn. rewrite H2. cbn. by rewrite H3. }
  destruct r as [e|]; cbn [res final events fst snd].
  - destruct (Hhead []) as [Hw Hr].
    split; [symmetry; exact Hw|]. exists [t], [].
    split; [exact Hr|]. right. left. exists [], t, e.
    split_and!; [done|constructor|done|done|cbn; lia|done].
  - destruct (IH w3) as (Hfin & turns & tail & Hr & Hend).
    destruct (Hhead (events (androidBuilds flags tempdir gopathDir gomobpath
                               androidDir mainPath archs w3))) as [Hw Hr'].
    split; [by rewrite Hw|]. exists (t :: turns), tail.
    rewrite Hr', Hr. split; [cbn; by rewrite <- ?app_assoc|].
    destruct Hend as [(? & ? & ? & ?)|[(before & t' & e & -> & ? & ? & ? & ? & ?)
                                      |(e & ? & ? & ? & ?)]].
    + left. split_and!; [done|done|cbn; lia|by constructor].
    + right. left. exists (t :: before), t', e.
      split_and!; [done|by constructor|done|done|cbn in *; lia|done].
    + right. right. exists e.
      split_and!; [done|by constructor|cbn; lia|done].
Qed.

(** C9 (as amended): the iOS block starts one goroutine per environment, in
    order and before it receives anything, and every compiler invocation of
    the block is the one of such a goroutine for its own environment; the
    invocations of two jobs can come in either order, before anything is
    received.  The Android loop starts no goroutine.  [Bind] itself makes
    each compiler invocation, turn by turn in the order of the
    architectures, each for its own architecture; every invocation before
    the last one shown returned [nil], and one that fails is the last: the
    loop ends with its error before the remaining architectures are
    built. *)
Theorem builds_concurrent_on_ios_sequential_on_android :
  (∀ flags tempdir mainPath envs w,
     let evs := events (iosBuild flags tempdir mainPath envs w) in
     (∃ e1 e2,
        evs = e1 ++ e2 ∧ omap spawned e1 = envs ∧ omap recvd e1 = []
        ∧ omap spawned e2 = [])
     ∧ Forall (λ ev, built ev = None
                     ∨ ∃ env, env ∈ envs
                         ∧ goroutineCall flags mainPath tempdir
                             (filepath_Join [tempdir; "IOS-GOPATH"]) env ev)
              evs)
  ∧ (let envs := [["GOOS=darwin"; "GOARCH=arm"]; ["GOOS=darwin"; "GOARCH=arm64"]] in
     let run := λ w : list nat, events (iosBuild (E := Demo.busy [])
                               (Demo.flags "ios/arm ios/arm64") "/tmp/work"
                               "/tmp/work/main.go" envs w) in
     let goarchs := λ evs, (λ b, Demo.getenv b.2 "GOARCH") <$> omap built evs in
     (omap recvd (take 11 (run [0; 1; 1; 2; 2])) = []
      ∧ goarchs (take 11 (run [0; 1; 1; 2; 2])) = ["arm"; "arm64"])
     ∧ (omap recvd (take 11 (run [0; 2; 2; 1; 1])) = []
        ∧ goarchs (take 11 (run [0; 2; 2; 1; 1])) = ["arm64"; "arm"]))
  ∧ (∀ flags tempdir gopathDir gomobpath androidDir mainPath androidArchs w,
       let o := androidBuilds flags tempdir gopathDir gomobpath androidDir
                  mainPath androidArchs w in
       Forall (compilesIn (λ who, who = Main)) (events o)
       ∧ ∃ turns tail,
           replies w (events o)
           = androidTurns flags tempdir gopathDir gomobpath androidDir mainPath
               androidArchs turns ++ tail
           ∧ loopEnd gomobpath androidArchs turns tail (res o)).
Proof.
  split_and!.
  - intros flags tempdir mainPath envs w. cbv zeta.
    unfold iosBuild. cbv zeta. rewrite bind_run.
    destruct (dispatch_run flags mainPath tempdir
                (filepath_Join [tempdir; "IOS-GOPATH"]) [] envs w)
      as (p & Hres & Henv & Hs & Hsp & Hev).
    pose proof (dispatch_events flags mainPath tempdir
                  (filepath_Join [tempdir; "IOS-GOPATH"]) [] envs w) as Hde.
    rewrite Hres. cbn [res]. cbv zeta. cbn [events].
    set (e1 := events (dispatch _ _ _ _ _ _ _)) in *.
    set (w1 := final (dispatch _ _ _ _ _ _ _)) in *.
    match goal with
    | |- context [events (?m w1)] => set (e2 := events (m w1))
    end.
    assert (Forall (λ ev, spawned ev = None
                          ∧ (built ev = None
                             ∨ ∃ env, env ∈ envs
                                 ∧ goroutineCall flags mainPath tempdir
                                     (filepath_Join [tempdir; "IOS-GOPATH"]) env ev))
              e2) as He2.
    { subst e2. rewrite bind_run.
      match goal with
      | |- context [collect _ _ _ _ ?n p ?a w1] =>
        pose proof (collect_events flags mainPath tempdir
                      (filepath_Join [tempdir; "IOS-GOPATH"]) n p a w1
                      (Hs (Forall_nil_2 _))) as Hce
      end.
      rewrite Henv in Hce. cbn [app] in Hce.
      assert (Forall (λ ev, spawned ev = None
                          ∧ (built ev = None
                             ∨ ∃ env, env ∈ envs
                                 ∧ goroutineCall flags mainPath tempdir
                                     (filepath_Join [tempdir; "IOS-GOPATH"]) env ev))
                (events (collect flags mainPath tempdir
                           (filepath_Join [tempdir; "IOS-GOPATH"]) (length envs)
                           p [] w1))) as Hc.
      { eapply Forall_impl; [exact Hce|].
        intros ev [[k ->]|[[msg ->]|[[n ->]|(env & Hin & Hc)]]];
          [by split; [|left]..|].
        split; [by destruct Hc as [->|[? ->]]|]. right. by exists env. }
      destruct (res (collect _ _ _ _ _ _ _ _)); cbn [events]; [|done..].
      apply Forall_app_2; [done|].
      match goal with
      | |- Forall _ (events (?m ?w')) =>
        generalize w';
        change (only (λ ev, spawned ev = None
                          ∧ (built ev = None
                             ∨ ∃ env, env ∈ envs
                                 ∧ goroutineCall flags mainPath tempdir
                                     (filepath_Join [tempdir; "IOS-GOPATH"]) env ev))
                     m)
      end.
      only_walk; split; try done; by left. }
    split.
    + exists e1, e2. split_and!; [done|done| |].
      * apply omap_None. eapply Forall_impl; [exact Hev|]. by intros ev [_ [? _]].
      * apply omap_None. eapply Forall_impl; [exact He2|]. by intros ev [? _].
    + apply Forall_app_2.
      * eapply Forall_impl; [exact Hde|].
        intros ev [[env ->]|[[n ->]|(env & Hin & Hc)]]; [by left..|].
        right. by exists env.
      * eapply Forall_impl; [exact He2|]. by intros ev [_ ?].
  - cbv zeta. split_and!; vm_compute; reflexivity.
  - intros flags tempdir gopathDir gomobpath androidDir mainPath androidArchs w.
    cbv zeta. split.
    + revert w.
      change (only (compilesIn (λ who, who = Main))
                (androidBuilds flags tempdir gopathDir gomobpath androidDir
                   mainPath androidArchs)).
      apply only_androidBuilds; intros; split; try done; by intros ?? [= <- <-].
    + apply androidBuilds_turns.
Qed.

(** With no package argument, once [WriteFile] runs the generator it was given
    the run panics on [args[0]]. *)
Lemma writeMain_no_args flags mainPath w :
  invoked (oracle _ (WriteFile flags mainPath None) w).1 = true →
  res (writeMain flags mainPath [] w)
  = Panic "runtime error: index out of range [0] with length 0".
Proof.
  intros H. unfold writeMain. cbv zeta. rewrite bind_run, invoke_run. cbn.
  by rewrite H.
Qed.

(** *** Reading a result back through the monad *)

Lemma bind_Val {A B} (m : M A) (k : A → M B) w b :
  res ((m ≫= k) w) = Val b →
  ∃ a, res (m w) = Val a ∧ res (k a (final (m w))) = Val b.
Proof.
  rewrite bind_run. destruct (res (m w)) as [a| |]; cbn; [|done..]. by exists a.
Qed.

Lemma try_invoke_Val {A} who (c : call (Result A)) w a :
  res (try (invoke who c) w) = Val a → (oracle _ c w).1 = Ok a.
Proof.
  rewrite try_invoke_run. destruct ((oracle _ c w).1); cbn; [|done].
  by intros [= ->].
Qed.

(** *** Which architectures are built *)

Lemma androidArchsOf_filter targets :
  androidArchsOf targets
  = filter (λ ar, "android/" +:+ ar ∈ targets) androidNames.
Proof.
  unfold androidArchsOf, androidNames. cbv zeta.
  rewrite !filter_cons, filter_nil. cbn [String.append].
  repeat case_decide; done.
Qed.

(** X4: the Android architectures are those of the four whose key is in the
    target set, in the order arm, arm64, 386, amd64; and when the set comes
    from [ParseTargets] and holds the [android] marker, there is at least one:
    the Android block never runs with nothing to build. *)
Theorem androidArchsOf_requested :
  (∀ targets,
     androidArchsOf targets
     = filter (λ ar, "android/" +:+ ar ∈ targets) androidNames)
  ∧ ∀ a, "android" ∈ ParseTargets a → androidArchsOf (ParseTargets a) ≠ [].
Proof.
  split; [apply androidArchsOf_filter|]. intros a Ha.
  apply (marker_iff_architecture a Android) in Ha as [ar Har].
  rewrite androidArchsOf_filter. intros Hnil.
  assert (archName ar ∈ filter (λ ar, "android/" +:+ ar ∈ ParseTargets a)
                          androidNames) as Hin.
  { apply list_elem_of_filter. split.
    - by destruct ar.
    - destruct ar; unfold androidNames; rewrite !elem_of_cons; tauto. }
  rewrite Hnil in Hin. by apply elem_of_nil in Hin.
Qed.

Lemma addEnv_run targets key mk envs w :
  addEnv targets key mk envs w =
  if decide (key ∈ targets) then
    match (oracle _ mk w).1 with
    | Ok env => Run (Val (envs ++ [env])) (oracle _ mk w).2 [Called Main mk]
    | Err e => Run (Return (Some e)) (oracle _ mk w).2 [Called Main mk]
    end
  else Run (Val envs) w [].
Proof.
  unfold addEnv. case_decide; [|done]. rewrite bind_run, try_invoke_run.
  destruct ((oracle _ mk w).1); cbn; by rewrite ?app_nil_r.
Qed.

Lemma addEnv_length targets key mk envs w envs' :
  res (addEnv targets key mk envs w) = Val envs' →
  length envs' = (length envs + length (filter (λ k, k ∈ targets) [key]))%nat.
Proof.
  rewrite addEnv_run, filter_cons, filter_nil. case_decide; cbn.
  - destruct ((oracle _ mk w).1); cbn; [|done]. intros [= <-].
    by rewrite length_app.
  - intros [= <-]. lia.
Qed.

Lemma iosEnvs_length flags targets w envs :
  res (iosEnvs flags targets w) = Val envs →
  length envs = length (filter (λ k, k ∈ targets) iosKeys).
Proof.
  intros H. unfold iosEnvs in H.
  apply bind_Val in H as (e1 & H1 & H). apply bind_Val in H as (e2 & H2 & H).
  apply bind_Val in H as (e3 & H3 & H).
  apply addEnv_length in H1, H2, H3, H. rewrite H, H3, H2, H1.
  unfold iosKeys. rewrite !filter_cons, filter_nil.
  repeat case_decide; cbn; lia.
Qed.

(** X5: when [iosEnvs] succeeds it yields one environment per iOS
    architecture key of the target set; and when the set comes from
    [ParseTargets] and holds the [ios] marker, there is at least one, so the
    iOS block never dispatches nothing. *)
Theorem iosEnvs_one_per_architecture flags targets w envs :
  res (iosEnvs flags targets w) = Val envs →
  length envs = length (filter (λ k, k ∈ targets) iosKeys)
  ∧ ∀ a, targets = ParseTargets a → "ios" ∈ targets → envs ≠ [].
Proof.
  intros H. apply iosEnvs_length in H as Hlen.
  split; [done|]. intros a -> Ha.
  apply (marker_iff_architecture a IOS) in Ha as [ar Har].
  intros ->. symmetry in Hlen. apply (length_zero_iff_nil (filter _ _)) in Hlen.
  assert (qualifiedName IOS ar ∈ filter (λ k, k ∈ ParseTargets a) iosKeys) as Hin.
  { apply list_elem_of_filter. split; [done|].
    destruct ar; unfold iosKeys; rewrite !elem_of_cons; tauto. }
  rewrite Hlen in Hin. by apply elem_of_nil in Hin.
Qed.

(** *** What the prelude lets through *)

Lemma rejectMain_Val pkgs w u :
  res (rejectMain pkgs w) = Val u → Forall (λ pkg, Name pkg ≠ "main") pkgs.
Proof.
  induction pkgs as [|pkg pkgs IH]; cbn [rejectMain]; [by constructor|].
  case_decide as Hn; [done|]. intros Hr. constructor; [done|by apply IH].
Qed.

(** X6: when the prelude lets [Bind] go on, none of the imported packages is
    named [main], and it has done nothing but look things up. *)
Theorem prelude_rejects_main flags args w pkgs cmdPath :
  res (prelude flags args w) = Val (pkgs, cmdPath) →
  Forall (λ pkg, Name pkg ≠ "main") pkgs
  ∧ Forall (λ ev, produces ev = false) (events (prelude flags args w)).
Proof.
  intros H. split.
  - unfold prelude in H.
    repeat (apply bind_Val in H as (? & ? & H)).
    injection H as -> ->.
    match goal with
    | Hr : res (rejectMain _ _) = Val _ |- _ => exact (rejectMain_Val _ _ _ Hr)
    end.
  - revert w H. intros w _. revert w.
    change (only (λ ev, produces ev = false) (prelude flags args)).
    unfold prelude. cbv zeta. only_walk.
Qed.

(** *** The [ios] directories of the packages *)

Lemma copyIosEntries_Val flags pkg dir files w :
  res (copyIosEntries flags pkg dir files w) = Val tt.
Proof.
  revert w. induction files as [|i files IH]; intros w; cbn [copyIosEntries];
    [done|].
  rewrite bind_run.
  destruct (IsDir i && bool_decide (FileName i = "ios")).
  - rewrite bind_run, invoke_run. cbn [res final]. apply IH.
  - cbn [res final mret]. apply IH.
Qed.

Lemma only_copyIosEntries_into (P : event → Prop) flags pkg dir files :
  P (Called Main (CopyDirContents flags (filepath_Join [dir])
                    (filepath_Join [Dir pkg; "ios"]))) →
  only P (copyIosEntries flags pkg dir files).
Proof.
  intros H. induction files; cbn [copyIosEntries]; repeat only_step; done.
Qed.

(** X7: copying the [ios] directories of the packages never stops [Bind]: a
    directory that cannot be read is skipped and the outcome of a copy is
    dropped, so the loop always falls through.  It reads the directories of
    the packages that import [gomatcha.io/bridge] and of no other, and every
    copy goes from such a package's [ios] directory into the working output
    directory. *)
Theorem copyIosDirs_drops_errors flags dir pkgs w :
  res (copyIosDirs flags dir pkgs w) = Val tt
  ∧ Forall (λ ev, ∃ pkg,
              pkg ∈ pkgs ∧ "gomatcha.io/bridge" ∈ Imports pkg
              ∧ (ev = Called Main (ReadDir (Dir pkg))
                 ∨ ev = Called Main (CopyDirContents flags (filepath_Join [dir])
                                       (filepath_Join [Dir pkg; "ios"]))))
           (events (copyIosDirs flags dir pkgs w)).
Proof.
  revert w. induction pkgs as [|pkg pkgs IH]; intros w; cbn [copyIosDirs];
    [by split|].
  rewrite bind_run.
  set (step := if bool_decide ("gomatcha.io/bridge" ∈ Imports pkg) then _ else _).
  assert (res (step w) = Val tt
          ∧ Forall (λ ev, "gomatcha.io/bridge" ∈ Imports pkg
                          ∧ (ev = Called Main (ReadDir (Dir pkg))
                             ∨ ev = Called Main
                                      (CopyDirContents flags (filepath_Join [dir])
                                         (filepath_Join [Dir pkg; "ios"]))))
                   (events (step w))) as [Hres Hev].
  { subst step. case_bool_decide as Hb; [|by split].
    rewrite bind_run, invoke_run. cbn [res final events].
    destruct ((oracle _ (ReadDir (Dir pkg)) w).1) as [files|e].
    - split; [apply copyIosEntries_Val|].
      constructor; [by auto|].
      apply (only_copyIosEntries_into
               (λ ev, "gomatcha.io/bridge" ∈ Imports pkg ∧ _)). by auto.
    - split; [done|]. cbn. constructor; [by auto|constructor]. }
  rewrite Hres. cbn [res final events].
  destruct (IH (final (step w))) as [IHres IHev].
  split; [done|]. apply Forall_app_2.
  - eapply Forall_impl; [exact Hev|]. intros ev [Hi Hor]. exists pkg.
    split_and!; [by left|done..].
  - eapply Forall_impl; [exact IHev|]. intros ev (q & Hq & Hi & Hor).
    exists q. split_and!; [by right|done..].
Qed.

(** *** Ways out *)

Section Exits.

Context (Q : option error + string → Prop) (lax : Prop).
Context (HQ : ∀ e, Q (inl (Some e))) (Hlax : lax → ∀ msg, Q (inr msg)).

Lemma exits_ret {A} (a : A) : exits Q (mret a).
Proof. by intros w. Qed.

Lemma exits_returns {A} e : Q (inl e) → exits Q (returns (A := A) e).
Proof. by intros H w. Qed.

Lemma exits_panic {A} msg : Q (inr msg) → exits Q (panic (A := A) msg).
Proof. by intros H w. Qed.

Lemma exits_emit ev : exits Q (emit ev).
Proof. by intros w. Qed.

Lemma exits_invoke {R} who (c : call R) : exits Q (invoke who c).
Proof. intros w. by rewrite invoke_run. Qed.

Lemma exits_bind_post {A B} (R : A → Prop) (m : M A) (k : A → M B) :
  (∀ w a, res (m w) = Val a → R a) → exits Q m → (∀ a, R a → exits Q (k a)) →
  exits Q (m ≫= k).
Proof.
  intros HR Hm Hk w. rewrite bind_run. specialize (Hm w). specialize (HR w).
  destruct (res (m w)) as [a| |]; cbn; [|done..].
  apply (Hk a); by apply HR.
Qed.

Lemma exits_bind {A B} (m : M A) (k : A → M B) :
  exits Q m → (∀ a, exits Q (k a)) → exits Q (m ≫= k).
Proof. intros Hm Hk. apply (exits_bind_post (λ _, True)); auto. Qed.

Lemma exits_try {A} (m : M (Result A)) : exits Q m → exits Q (try m).
Proof.
  intros Hm. apply exits_bind; [done|].
  intros [a|e]; [apply exits_ret|by apply exits_returns].
Qed.

Lemma exits_check (m : M (option error)) : exits Q m → exits Q (check m).
Proof.
  intros Hm. apply exits_bind; [done|].
  intros [e|]; [by apply exits_returns|apply exits_ret].
Qed.

Lemma exits_defer {A} (d : M (option error)) (body : M A) :
  exits Q body → exits Q (defer d body).
Proof. intros Hb w. apply Hb. Qed.

Ltac exits_step :=
  lazymatch goal with
  | |- exits _ (mbind _ _) => apply exits_bind; [|intros ?]
  | |- exits _ (mret _) => apply exits_ret
  | |- exits _ (returns (Some _)) => apply exits_returns, HQ
  | |- exits _ (try _) => apply exits_try
  | |- exits _ (check _) => apply exits_check
  | |- exits _ (invoke _ _) => apply exits_invoke
  | |- exits _ (emit _) => apply exits_emit
  | |- exits _ (match ?x with _ => _ end) => destruct x eqn:?
  end.

Lemma exits_rejectMain pkgs : exits Q (rejectMain pkgs).
Proof. induction pkgs; cbn [rejectMain]; repeat exits_step; done. Qed.

Lemma exits_writeMain flags file args :
  args ≠ [] ∨ lax → exits Q (writeMain flags file args).
Proof.
  intros H. unfold writeMain.
  destruct args as [|a0 rest]; cbv zeta; repeat exits_step.
  apply exits_panic. destruct H as [H|H]; [done|by apply Hlax].
Qed.

Lemma exits_copyIosEntries flags pkg dir files :
  exits Q (copyIosEntries flags pkg dir files).
Proof. induction files; cbn [copyIosEntries]; repeat exits_step; done. Qed.

Lemma exits_copyIosDirs flags dir pkgs : exits Q (copyIosDirs flags dir pkgs).
Proof.
  induction pkgs; cbn [copyIosDirs]; repeat exits_step; try done.
  apply exits_copyIosEntries.
Qed.

Lemma exits_iosEnvs flags targets : exits Q (iosEnvs flags targets).
Proof. unfold iosEnvs, addEnv. repeat exits_step. Qed.

Lemma exits_androidBuilds flags tempdir gopathDir gomobpath androidDir mainPath archs :
  exits Q (androidBuilds flags tempdir gopathDir gomobpath androidDir mainPath archs).
Proof.
  induction archs; cbn [androidBuilds]; cbv zeta; repeat exits_step; done.
Qed.

Lemma receive_res flags mainPath tempdir gopathDir (p : pool) w :
  let o := receive flags mainPath tempdir gopathDir p w in
  (p = [] ∧ ∃ msg, res o = Panic msg)
  ∨ ∃ k g msg, p !! k = Some g ∧ res o = Val (msg, delete k p).
Proof.
  cbv zeta. unfold receive. cbv zeta. rewrite bind_run, invoke_run. cbn.
  set (s := oracle _ (Schedule (length p)) w).
  destruct (p !! (s.1 `mod` length p)) as [g|] eqn:Hk.
  - right. rewrite bind_run.
    assert (∃ msg, res (finish flags mainPath tempdir gopathDir g s.2) = Val msg)
      as [msg Hres].
    { destruct g as [env|env gopath|env msg]; cbn [finish]; [| |by eexists].
      - rewrite bind_run, invoke_run. cbn.
        match goal with
        | |- context [buildArchive _ _ _ _ env ?gp ?w'] =>
          destruct (buildArchive_run flags mainPath tempdir gopathDir env gp w')
            as (msg & -> & _)
        end.
        by eexists.
      - destruct (buildArchive_run flags mainPath tempdir gopathDir env gopath s.2)
          as (msg & -> & _).
        by eexists. }
    rewrite Hres. cbn. by exists (s.1 `mod` length p), g, msg.
  - left. destruct p as [|g p]; [by eauto|]. exfalso.
    apply lookup_ge_None_1 in Hk.
    pose proof (Nat.mod_upper_bound s.1 (length (g :: p))) as Hlt.
    cbn in *. lia.
Qed.

Lemma exits_receive flags mainPath tempdir gopathDir (p : pool) :
  p ≠ [] ∨ lax → exits Q (receive flags mainPath tempdir gopathDir p).
Proof.
  intros Hp w.
  destruct (receive_res flags mainPath tempdir gopathDir p w)
    as [(-> & [msg Hres])|(k & g & msg & Hk & Hres)];
    cbv zeta in *; rewrite Hres; [|done].
  destruct Hp as [?|?]; [done|by apply Hlax].
Qed.

Lemma receive_Val flags mainPath tempdir gopathDir (p : pool) w msg p' :
  res (receive flags mainPath tempdir gopathDir p w) = Val (msg, p') →
  S (length p') = length p.
Proof.
  destruct (receive_res flags mainPath tempdir gopathDir p w)
    as [(-> & [m Hres])|(k & g & m & Hk & Hres)];
    cbv zeta in *; rewrite Hres; [done|].
  intros [= _ <-].
  unfold pool in *. rewrite length_delete by (by eexists).
  apply lookup_lt_Some in Hk. lia.
Qed.

Lemma meanwhile_Val flags mainPath tempdir gopathDir (p : pool) w p' :
  res (meanwhile flags mainPath tempdir gopathDir p w) = Val p' →
  length p' = length p.
Proof.
  destruct (meanwhile_run flags mainPath tempdir gopathDir p w)
    as (q & -> & Henv & _).
  intros [= <-]. by rewrite <- (length_fmap envOf q), Henv, length_fmap.
Qed.

Lemma exits_meanwhile flags mainPath tempdir gopathDir (p : pool) :
  exits Q (meanwhile flags mainPath tempdir gopathDir p).
Proof.
  intros w.
  by destruct (meanwhile_run flags mainPath tempdir gopathDir p w) as (q & -> & _).
Qed.

Lemma exits_collect flags mainPath tempdir gopathDir n (p : pool) archs :
  (n ≤ length p)%nat ∨ lax →
  exits Q (collect flags mainPath tempdir gopathDir n p archs).
Proof.
  revert p archs. induction n as [|n IH]; intros p archs Hn; cbn [collect].
  { apply exits_ret. }
  apply (exits_bind_post (λ r, S (length r.2) = length p)).
  - intros w [msg p'] Hr. by apply receive_Val in Hr.
  - apply exits_receive.
    destruct Hn as [Hn|?]; [left|by right]. destruct p; [cbn in Hn; lia|done].
  - intros [msg p'] Hlen. cbn in Hlen.
    apply (exits_bind_post (λ q, length q = length p')).
    + intros w q Hq. by apply meanwhile_Val in Hq.
    + apply exits_meanwhile.
    + intros q Hq. destruct (err msg); [by apply exits_returns|].
      apply IH. destruct Hn as [Hn|?]; [left; lia|by right].
Qed.

Lemma exits_iosBuild flags tempdir mainPath envs :
  exits Q (iosBuild flags tempdir mainPath envs).
Proof.
  unfold iosBuild. cbv zeta.
  apply (exits_bind_post (λ p : pool, length p = length envs)).
  - intros w p Hp.
    destruct (dispatch_run flags mainPath tempdir
                (filepath_Join [tempdir; "IOS-GOPATH"]) [] envs w)
      as (q & Hq & Henv & _).
    rewrite Hq in Hp. injection Hp as <-.
    by rewrite <- (length_fmap envOf q), Henv.
  - intros w.
    by destruct (dispatch_run flags mainPath tempdir
                   (filepath_Join [tempdir; "IOS-GOPATH"]) [] envs w)
      as (q & -> & _).
  - intros p Hp. apply exits_bind; [apply exits_collect; left; lia|].
    intros archs. repeat exits_step.
Qed.

Lemma exits_prelude flags args : exits Q (prelude flags args).
Proof.
  unfold prelude. cbv zeta.
  repeat first [exits_step | apply exits_rejectMain].
Qed.

Lemma exits_bindIOS flags args tempdir cmdPath pkgs targets :
  args ≠ [] ∨ lax → exits Q (bindIOS flags args tempdir cmdPath pkgs targets).
Proof.
  intros H. unfold bindIOS, iosPrepare. cbv zeta.
  repeat first [ exits_step | by apply exits_writeMain | apply exits_copyIosDirs
               | apply exits_iosEnvs | apply exits_iosBuild ].
Qed.

Lemma exits_bindAndroid flags args tempdir cmdPath pkgs targets :
  args ≠ [] ∨ lax → exits Q (bindAndroid flags args tempdir cmdPath pkgs targets).
Proof.
  intros H. unfold bindAndroid. cbv zeta.
  repeat first [ exits_step | by apply exits_writeMain
               | apply exits_androidBuilds ].
Qed.

End Exits.

(** X8: with at least one package argument a run of [Bind] never panics: the
    receive loop always finds a pending sender, and [args[0]] exists.  So a
    panic of [Bind] means it was called without arguments. *)
Theorem Bind_panics_only_without_arguments flags args w msg :
  res (Bind flags args w) = Panic msg → args = [].
Proof.
  intros H. destruct args as [|a0 rest]; [done|]. exfalso.
  assert (exits returning (Bind flags (a0 :: rest))) as He.
  { assert (∀ e, returning (inl (Some e))) as HQ by (by eexists).
    assert (False → ∀ s, returning (inr s)) as Hlax by done.
    unfold Bind. apply exits_bind; [by apply exits_try, exits_invoke|].
    intros tempdir.
    assert (exits returning (bindBody flags (a0 :: rest) tempdir)) as Hb.
    { unfold bindBody. cbv zeta.
      apply exits_bind; [by apply exits_prelude|]. intros [pkgs cmdPath].
      apply exits_bind.
      { case_decide; [|apply exits_ret].
        by apply (exits_bindIOS _ False); [..|left]. }
      intros _. apply exits_bind.
      { case_decide; [|apply exits_ret].
        by apply (exits_bindAndroid _ False); [..|left]. }
      intros _. apply exits_returns. by eexists. }
    destruct (negb (BuildWork flags)); [by apply exits_defer|done]. }
  specialize (He w). rewrite H in He. by destruct He.
Qed.

(** *** The generated main package *)

Lemma only_writeMain_text (P : event → Prop) flags file args :
  P (Called Main (WriteFile flags file
       match args with [] => None | a0 :: _ => Some (BindFile a0) end)) →
  only P (writeMain flags file args).
Proof. intros H. unfold writeMain. cbv zeta. repeat only_step; done. Qed.

(** Walking through [Bind] down to the calls. *)
Ltac only_open :=
  unfold Build, Bind, bindBody, bindIOS, iosPrepare, bindAndroid, prelude,
    iosBuild;
  cbv zeta.

Ltac only_run :=
  repeat first
    [ apply only_writeMain_text
    | apply only_defer
    | only_step
    | apply only_rejectMain
    | apply only_copyIosDirs; intros
    | apply only_iosEnvs
    | apply only_dispatch; intros
    | apply only_collect; intros
    | apply only_androidBuilds; intros ];
  try event_facts.

Ltac only_deep := only_open; only_run.

(** X9: whatever further package arguments are given, every main file a run
    of [Bind] has generated imports the first argument only. *)
Theorem Bind_binds_first_argument flags a0 rest w :
  Forall (λ ev, ∀ g, generated ev = Some g → g = Some (BindFile a0))
         (events (Bind flags (a0 :: rest) w)).
Proof.
  revert w.
  change (only (λ ev, ∀ g, generated ev = Some g → g = Some (BindFile a0))
               (Bind flags (a0 :: rest))).
  only_deep.
Qed.

(** *** No known target *)

Lemma only_prelude_lookups flags args :
  only (λ ev, looksUp ev = true) (prelude flags args).
Proof. unfold prelude. cbv zeta. only_walk. Qed.


(** *** [Build] *)

Lemma only_bindBody_binary flags args tempdir :
  BuildBinary flags = true →
  only (λ ev, copiedDir ev = None ∧ removed ev = None
              ∧ ∀ c, copiedFile ev = Some c → binaryDestination flags tempdir c.1)
       (bindBody flags args tempdir).
Proof.
  intros Hb. only_open. rewrite !Hb. cbn [negb]. only_run;
    unfold binaryDestination; cbn; repeat split; intros; simplify_eq/=; eauto.
Qed.

Lemma omap_Forall {A B} (f : A → option B) (Q : B → Prop) l :
  Forall (λ x, ∀ b, f x = Some b → Q b) l → Forall Q (omap f l).
Proof.
  induction 1 as [|x l Hx _ IH]; [constructor|]. cbn.
  destruct (f x) as [b|] eqn:Hf; [constructor; auto|done].
Qed.

(** X11: [Build] gives up with the error of [PackageDir] before anything else
    happens when the matcha package cannot be located, and with the error of
    [NewTmpDir] when no working directory can be made.  Otherwise it runs
    [Bind] in binary mode with the package directory as output: no directory
    is ever copied, the only thing removed is the working directory (once, and
    not at all when [BuildWork] keeps it), so the package directory is never
    cleared; and the only files copied out of the working directory are the
    two binaries, to their places below the output directory. *)
Theorem Build_places_binaries_only flags args w :
  let o := Build flags args w in
  let p := oracle _ (PackageDir flags "gomatcha.io/matcha") w in
  match p.1 with
  | Err e =>
    res o = Return (Some e)
    ∧ events o = [Called Main (PackageDir flags "gomatcha.io/matcha")]
  | Ok iosDir =>
    let flags' := binaryFlags flags iosDir in
    match (oracle _ (NewTmpDir flags' "") p.2).1 with
    | Err e => res o = Return (Some e)
    | Ok tempdir =>
      omap copiedDir (events o) = []
      ∧ omap removed (events o) = (if BuildWork flags then [] else [tempdir])
      ∧ Forall (λ c, binaryDestination flags' tempdir c.1)
               (omap copiedFile (events o))
    end
  end.
Proof.
  cbv zeta. unfold Build. rewrite bind_run, try_invoke_run.
  destruct (oracle _ (PackageDir flags "gomatcha.io/matcha") w)
    as [[iosDir|e] w1]; cbn; [|done].
  set (flags' := binaryFlags flags iosDir).
  unfold Bind. rewrite bind_run, try_invoke_run.
  destruct (oracle _ (NewTmpDir flags' "") w1) as [[tempdir|e] w2]; cbn; [|done].
  pose proof (only_bindBody_binary flags' args tempdir eq_refl w2) as Hb.
  assert (omap copiedDir (events (bindBody flags' args tempdir w2)) = []) as Hc.
  { apply omap_None. eapply Forall_impl; [exact Hb|]. by intros ev [? _]. }
  assert (omap removed (events (bindBody flags' args tempdir w2)) = []) as Hr.
  { apply omap_None. eapply Forall_impl; [exact Hb|]. by intros ev (_ & ? & _). }
  assert (Forall (λ c, binaryDestination flags' tempdir c.1)
            (omap copiedFile (events (bindBody flags' args tempdir w2)))) as Hf.
  { apply omap_Forall. eapply Forall_impl; [exact Hb|].
    by intros ev (_ & _ & ?). }
  destruct (BuildWork flags); cbn.
  - by rewrite Hc, Hr.
  - unfold defer. cbn. rewrite invoke_run. cbn.
    rewrite !omap_app, Hc, Hr. cbn. by rewrite app_nil_r.
Qed.

(** *** Every dispatched build is merged once *)

Lemma sound_archiveOf tempdir env msg :
  sound tempdir (Sending env msg) → err msg = None → msg = archiveOf tempdir env.
Proof. destruct msg as [a pth e]. cbn. by intros [-> ->] ->. Qed.

(** When the receive loop, asked for as many messages as there are pending
    goroutines, falls through, the results it added are the archives of the
    pending goroutines, one from each, in some order. *)
Lemma collect_Val_each_once flags mainPath tempdir gopathDir n (p : pool)
    archs w archs' :
  Forall (sound tempdir) p → length p = n →
  res (collect flags mainPath tempdir gopathDir n p archs w) = Val archs' →
  ∃ d, archs' = archs ++ d ∧ d ≡ₚ archiveOf tempdir <$> (envOf <$> p).
Proof.
  revert p archs w. induction n as [|n IH]; intros p archs w Hp Hlen;
    cbn [collect].
  { intros [= <-]. exists []. rewrite app_nil_r. by destruct p. }
  rewrite bind_run.
  destruct (receive_run flags mainPath tempdir gopathDir p w Hp)
    as [(-> & _)|(k & g & msg & evs & Hk & Hres & Hev & Hs & Hg)]; [done|].
  cbv zeta in *. rewrite Hres. cbn [res].
  set (w1 := final (receive flags mainPath tempdir gopathDir p w)).
  assert (Forall (sound tempdir) (delete k p)) as Hp1.
  { apply Forall_forall. intros x Hx. eapply Forall_forall; [exact Hp|].
    unfold pool in *. by eapply list_elem_of_delete_inv. }
  rewrite bind_run.
  destruct (meanwhile_run flags mainPath tempdir gopathDir (delete k p) w1)
    as (p2 & Hres2 & Henv2 & Hs2 & Hev2).
  rewrite Hres2. cbn [res].
  destruct (err msg) as [e|] eqn:He; [done|].
  cbn [res]. intros H.
  apply IH in H as (d & -> & Hperm); [|by apply Hs2|].
  2:{ rewrite <- (length_fmap envOf p2), Henv2, length_fmap.
      unfold pool in *. rewrite length_delete by (by eexists). lia. }
  exists (msg :: d). split; [by rewrite <- app_assoc|].
  rewrite (sound_archiveOf _ _ _ Hs He), Hperm, Henv2.
  unfold pool in *.
  by rewrite (delete_Permutation p k g Hk) at 2.
Qed.

Lemma iosBuild_lipo flags tempdir mainPath envs w cmd :
  cmd ∈ omap ranCmd (events (iosBuild flags tempdir mainPath envs w)) →
  ∃ archs,
    cmd = lipoCommand (binaryPathOf tempdir) archs
    ∧ archs ≡ₚ archiveOf tempdir <$> envs.
Proof.
  unfold iosBuild. cbv zeta. rewrite bind_run.
  destruct (dispatch_run flags mainPath tempdir
              (filepath_Join [tempdir; "IOS-GOPATH"]) [] envs w)
    as (p & Hres & Henv & Hs & Hsp & Hev).
  rewrite Hres. cbn [res]. cbv zeta. cbn [events].
  rewrite omap_app, (omap_None ranCmd (events (dispatch _ _ _ _ _ _ _)))
    by (eapply Forall_impl; [exact Hev|]; by intros ev [_ [_ ?]]).
  cbn [app].
  set (w1 := final (dispatch _ _ _ _ _ _ _)) in *.
  assert (length p = length envs) as Hlen
    by (by rewrite <- (length_fmap envOf p), Henv).
  match goal with
  | |- context [mbind _ (collect _ _ _ _ ?n p ?a)] =>
    pose proof (collect_received flags mainPath tempdir
                  (filepath_Join [tempdir; "IOS-GOPATH"]) n p a w1
                  (Hs (Forall_nil_2 _))) as [Hc _];
    pose proof (collect_Val_each_once flags mainPath tempdir
                  (filepath_Join [tempdir; "IOS-GOPATH"]) n p a w1) as Hp
  end.
  rewrite bind_run.
  destruct (res (collect _ _ _ _ _ _ _ _)) as [archs| |] eqn:Hres'; cbn;
    [|rewrite Hc; by intros ?%elem_of_nil..].
  destruct (Hp archs (Hs (Forall_nil_2 _)) Hlen eq_refl) as (d & -> & Hperm).
  rewrite Henv in Hperm. cbn [app fmap list_fmap] in Hperm |- *.
  rewrite bind_run, check_invoke_run.
  match goal with
  | |- context [oracle _ ?c ?w'] => destruct (oracle _ c w') as [[e|] w2]
  end; cbn.
  - rewrite omap_app, Hc. cbn. intros ->%list_elem_of_singleton. by exists d.
  - match goal with
    | |- context [events (?m w2)] =>
      assert (Forall plain (events (m w2))) as Hpl by
        (apply (only_impl plain plain); [done|]; only_walk)
    end.
    apply plain_omap in Hpl as [Hp1 _].
    rewrite omap_app, Hc. cbn. rewrite Hp1.
    intros ->%list_elem_of_singleton. by exists d.
Qed.

(** X12: a [lipo] command issued by the iOS block merges exactly the archives
    of the dispatched environments, one for each, in some order: every
    requested architecture is named once with its own file, none is missing,
    and no failed build is among them. *)
Theorem lipo_merges_each_build_once flags tempdir mainPath envs w cmd :
  cmd ∈ omap ranCmd (events (iosBuild flags tempdir mainPath envs w)) →
  ∃ archs,
    cmd = lipoCommand (binaryPathOf tempdir) archs
    ∧ archs ≡ₚ archiveOf tempdir <$> envs.
Proof. apply iosBuild_lipo. Qed.

(** X13: the arrival order is all that the scheduler can change in the merge:
    the [lipo] commands of two runs of the iOS block for the same
    environments are [xcrun lipo -create], the [-arch] groups of two lists of
    results that are permutations of one another, and the same [-o] file. *)
Theorem lipo_commands_differ_in_order_only flags tempdir mainPath envs w w' cmd cmd' :
  cmd ∈ omap ranCmd (events (iosBuild flags tempdir mainPath envs w)) →
  cmd' ∈ omap ranCmd (events (iosBuild flags tempdir mainPath envs w')) →
  ∃ archs archs',
    Args cmd = ["xcrun"; "lipo"; "-create"] ++ lipoInputs archs
               ++ ["-o"; binaryPathOf tempdir]
    ∧ Args cmd' = ["xcrun"; "lipo"; "-create"] ++ lipoInputs archs'
                  ++ ["-o"; binaryPathOf tempdir]
    ∧ archs ≡ₚ archs'.
Proof.
  intros (archs & -> & Hp)%iosBuild_lipo (archs' & -> & Hp')%iosBuild_lipo.
  exists archs, archs'. rewrite !lipoCommand_Args. split_and!; [done..|].
  by rewrite Hp, Hp'.
Qed.

(** *** The world along a trace *)

Lemma replay_app w e1 e2 : replay w (e1 ++ e2) = replay (replay w e1) e2.
Proof.
  revert w. induction e1 as [|ev e1 IH]; intros w; [done|].
  destruct ev; cbn; apply IH.
Qed.

Lemma replies_app w e1 e2 :
  replies w (e1 ++ e2) = replies w e1 ++ replies (replay w e1) e2.
Proof.
  revert w. induction e1 as [|ev e1 IH]; intros w; [done|].
  destruct ev; cbn; by rewrite IH.
Qed.

Lemma darwinEnv_none w evs :
  Forall (λ ev, darwinKey ev = None) evs → omap darwinEnv (replies w evs) = [].
Proof.
  intros H. revert w. induction H as [|ev evs Hev _ IH]; intros w; [done|].
  destruct ev as [R who c| |]; cbn; [|apply IH..].
  rewrite IH. by destruct c.
Qed.

Lemma coherent_ret {A} (a : A) : coherent (mret a).
Proof. done. Qed.

Lemma coherent_returns {A} e : coherent (returns (A := A) e).
Proof. done. Qed.

Lemma coherent_panic {A} msg : coherent (panic (A := A) msg).
Proof. done. Qed.

Lemma coherent_emit ev : (∀ R who (c : call R), ev ≠ Called who c) → coherent (emit ev).
Proof. intros H w. destruct ev; [by edestruct H|done..]. Qed.

Lemma coherent_invoke {R} who (c : call R) : coherent (invoke who c).
Proof. intros w. by rewrite invoke_run. Qed.

Lemma coherent_bind {A B} (m : M A) (k : A → M B) :
  coherent m → (∀ a, coherent (k a)) → coherent (m ≫= k).
Proof.
  intros Hm Hk w. rewrite bind_run.
  destruct (res (m w)) as [a| |]; cbn; [|apply Hm..].
  by rewrite replay_app, <- Hm, <- Hk.
Qed.

Lemma coherent_try {A} (m : M (Result A)) : coherent m → coherent (try m).
Proof. intros Hm. apply coherent_bind; [done|]. by intros [a|e]. Qed.

Lemma coherent_check (m : M (option error)) : coherent m → coherent (check m).
Proof. intros Hm. apply coherent_bind; [done|]. by intros [e|]. Qed.

Lemma coherent_defer {A} (d : M (option error)) (body : M A) :
  coherent d → coherent body → coherent (defer d body).
Proof.
  intros Hd Hb w. unfold defer. cbn. by rewrite replay_app, <- Hb, <- Hd.
Qed.

Ltac coherent_step :=
  lazymatch goal with
  | |- coherent (mbind _ _) => apply coherent_bind; [|intros ?]
  | |- coherent (mret _) => apply coherent_ret
  | |- coherent (returns _) => apply coherent_returns
  | |- coherent (panic _) => apply coherent_panic
  | |- coherent (try _) => apply coherent_try
  | |- coherent (check _) => apply coherent_check
  | |- coherent (invoke _ _) => apply coherent_invoke
  | |- coherent (emit _) => apply coherent_emit; done
  | |- coherent (match ?x with _ => _ end) => destruct x eqn:?
  end.

Lemma coherent_rejectMain pkgs : coherent (rejectMain pkgs).
Proof. induction pkgs; cbn [rejectMain]; repeat coherent_step; done. Qed.

Lemma coherent_writeMain flags file args : coherent (writeMain flags file args).
Proof. unfold writeMain. cbv zeta. repeat coherent_step. Qed.

Lemma coherent_copyIosEntries flags pkg dir files :
  coherent (copyIosEntries flags pkg dir files).
Proof. induction files; cbn [copyIosEntries]; repeat coherent_step; done. Qed.

Lemma coherent_copyIosDirs flags dir pkgs : coherent (copyIosDirs flags dir pkgs).
Proof.
  induction pkgs; cbn [copyIosDirs]; repeat coherent_step; try done;
    apply coherent_copyIosEntries.
Qed.

Lemma coherent_iosEnvs flags targets : coherent (iosEnvs flags targets).
Proof. unfold iosEnvs, addEnv. repeat coherent_step. Qed.

Lemma coherent_step_goroutine flags mainPath tempdir gopathDir g :
  coherent (step flags mainPath tempdir gopathDir g).
Proof. destruct g; cbn [step]; unfold buildArchive; repeat coherent_step. Qed.

Lemma coherent_finish flags mainPath tempdir gopathDir g :
  coherent (finish flags mainPath tempdir gopathDir g).
Proof. destruct g; cbn [finish]; unfold buildArchive; repeat coherent_step. Qed.

Lemma coherent_yield flags mainPath tempdir gopathDir fuel p :
  coherent (yield flags mainPath tempdir gopathDir fuel p).
Proof.
  revert p. induction fuel as [|fuel IH]; intros p; cbn [yield]; cbv zeta;
    repeat coherent_step; try done. apply coherent_step_goroutine.
Qed.

Lemma coherent_dispatch flags mainPath tempdir gopathDir p envs :
  coherent (dispatch flags mainPath tempdir gopathDir p envs).
Proof.
  revert p. induction envs; intros p; cbn [dispatch]; repeat coherent_step;
    try done. apply coherent_yield.
Qed.

Lemma coherent_collect flags mainPath tempdir gopathDir n p archs :
  coherent (collect flags mainPath tempdir gopathDir n p archs).
Proof.
  revert p archs. induction n; intros p archs; cbn [collect]; unfold receive;
    cbv zeta; repeat coherent_step; try done;
    first [apply coherent_finish|apply coherent_yield].
Qed.

Lemma coherent_androidBuilds flags tempdir gopathDir gomobpath androidDir mainPath archs :
  coherent (androidBuilds flags tempdir gopathDir gomobpath androidDir mainPath archs).
Proof. intros w. apply androidBuilds_turns. Qed.

Ltac coherent_walk :=
  repeat first
    [ coherent_step
    | apply coherent_rejectMain
    | apply coherent_writeMain
    | apply coherent_copyIosDirs
    | apply coherent_iosEnvs
    | apply coherent_yield
    | apply coherent_dispatch
    | apply coherent_collect
    | apply coherent_androidBuilds ].

Lemma coherent_prelude flags args : coherent (prelude flags args).
Proof. unfold prelude. cbv zeta. coherent_walk. Qed.

Lemma coherent_bindIOS flags args tempdir cmdPath pkgs targets :
  coherent (bindIOS flags args tempdir cmdPath pkgs targets).
Proof. unfold bindIOS, iosPrepare, iosBuild. cbv zeta. coherent_walk. Qed.

(** *** The Android archive *)

Lemma foldl_snoc {A} (l acc : list A) :
  foldl (λ acc i, acc ++ [i]) acc l = acc ++ l.
Proof.
  revert acc. induction l as [|x l IH]; intros acc; cbn [foldl].
  - by rewrite app_nil_r.
  - by rewrite IH, <- app_assoc.
Qed.

Section Packaging.

Context (flags : Flags) (tempdir : string) (pkgs : list Package)
  (archs : list string).

Lemma packagesAll_skip {A} (m : M A) (k : A → M unit) :
  only (λ ev, packaged ev = None ∧ builtByMain ev = None) m → coherent m →
  (∀ a w, packagesAll flags tempdir pkgs archs w (events (k a w))
          ∧ (res (k a w) = Val tt → omap packaged (events (k a w)) ≠ [])) →
  ∀ w, packagesAll flags tempdir pkgs archs w (events ((m ≫= k) w))
       ∧ (res ((m ≫= k) w) = Val tt
          → omap packaged (events ((m ≫= k) w)) ≠ []).
Proof.
  intros Hm Hc Hk w. rewrite bind_run. specialize (Hm w).
  assert (omap packaged (events (m w)) = []) as H1.
  { apply omap_None. eapply Forall_impl; [exact Hm|]. by intros ? [? _]. }
  assert (omap builtByMain (events (m w)) = []) as H2.
  { apply omap_None. eapply Forall_impl; [exact Hm|]. by intros ? [_ ?]. }
  destruct (res (m w)) as [a| |]; cbn [events res]; [|by split; [left|]..].
  destruct (Hk a (final (m w))) as [Hp Hv]. cbn zeta. split.
  - destruct Hp as [H|(pre & loop & ev & post & gomobpath & turns & Hev & Hx
                       & Hr & Hl & Hok & Hb1 & Hb2 & Hq)].
    + left. by rewrite omap_app, H1, H.
    + right. exists (events (m w) ++ pre), loop, ev, post, gomobpath, turns.
      rewrite Hev. split_and!; [by rewrite app_assoc|done| |done|done| |done|].
      * by rewrite replay_app, <- (Hc w).
      * by rewrite omap_app, H2, Hb1.
      * by rewrite <- app_assoc, omap_app, H1.
  - intros Hres. rewrite omap_app, H1. by apply Hv.
Qed.

End Packaging.

Lemma bindAndroid_packages flags args tempdir cmdPath pkgs targets w :
  let o := bindAndroid flags args tempdir cmdPath pkgs targets w in
  packagesAll flags tempdir pkgs (androidArchsOf targets) w (events o)
  ∧ (res o = Val tt → omap packaged (events o) ≠ []).
Proof.
  cbv zeta. revert w. unfold bindAndroid. cbv zeta. rewrite foldl_snoc.
  cbn [app].
  apply packagesAll_skip; [solve [only_run]|solve [coherent_walk]|].
  intros gomobpath.
  repeat (apply packagesAll_skip;
          [solve [only_run]|solve [coherent_walk]|intros ?]).
  intros w. rewrite bind_run.
  set (archs := androidArchsOf targets).
  set (gopathDir := filepath_Join [tempdir; "ANDROID-GOPATH"]).
  set (androidDir := filepath_Join [tempdir; "android"]).
  set (mainPath := filepath_Join [tempdir; "androidlib/main.go"]).
  destruct (androidBuilds_turns flags tempdir gopathDir gomobpath androidDir
              mainPath archs w) as (Hfin & turns & tail & Hr & Hend).
  set (o := androidBuilds flags tempdir gopathDir gomobpath androidDir mainPath
              archs w) in *.
  assert (omap packaged (events o) = []) as Hnp.
  { apply omap_None. subst o.
    apply (only_androidBuilds (λ ev, packaged ev = None)); intros; done. }
  destruct Hend as [(Hres & -> & Hlen & Hok)
                   |[(before & t & e & _ & _ & _ & _ & _ & Hres)
                    |(e & _ & _ & _ & Hres)]];
    rewrite Hres; cbn [res events]; [|by split; [left|]..].
  rewrite app_nil_r in Hr. cbv zeta.
  rewrite bind_run, check_invoke_run.
  match goal with
  | |- context [oracle _ ?c (final o)] =>
    set (aar := c); destruct (oracle _ aar (final o)) as [[e|] w1]
  end; cbn [fst snd res events final].
  - split; [|done]. right.
    exists [], (events o), (Called Main aar), [], gomobpath, turns.
    split_and!; [done|done|exact Hr|done|done|done|done|].
    by rewrite app_nil_r.
  - rewrite check_invoke_run.
    match goal with
    | |- context [oracle _ ?c w1] =>
      set (cp := c); destruct (oracle _ cp w1) as [[e|] w2]
    end; cbn [fst snd res events final].
    + split; [|done]. right.
      exists [], (events o), (Called Main aar), [Called Main cp], gomobpath, turns.
      split_and!; [done|done|exact Hr|done|done|done|done|].
      cbn [app]. by rewrite omap_app, Hnp.
    + split.
      * right.
        exists [], (events o), (Called Main aar), [Called Main cp], gomobpath, turns.
        split_and!; [done|done|exact Hr|done|done|done|done|].
        cbn [app]. by rewrite omap_app, Hnp.
      * intros _. rewrite omap_app, Hnp. done.
Qed.

(** X15: the Android block calls [BuildAAR] at most once, and then for
    exactly the imported packages and the requested Android architectures,
    right after its loop has gone through all of these architectures in
    their order: in each turn [Bind] itself has invoked the compiler with
    the environment of that turn's architecture and for the library of its
    ABI, and the compiler has returned [nil].  [Bind] compiles nothing
    before the loop and nothing after the packaging. *)
Theorem BuildAAR_after_all_builds flags args tempdir cmdPath pkgs targets w :
  packagesAll flags tempdir pkgs (androidArchsOf targets) w
    (events (bindAndroid flags args tempdir cmdPath pkgs targets w)).
Proof. apply bindAndroid_packages. Qed.

(** *** What a successful run has done *)

Lemma bind_Val_inv {A B} (m : M A) (k : A → M B) w b :
  res ((m ≫= k) w) = Val b →
  ∃ a, res (m w) = Val a ∧ res (k a (final (m w))) = Val b
       ∧ events ((m ≫= k) w) = events (m w) ++ events (k a (final (m w))).
Proof.
  rewrite bind_run. destruct (res (m w)) as [a| |]; cbn; [|done..]. by exists a.
Qed.

Lemma bind_Return_None {A C} (m : M A) (k : A → M C) w :
  exits failing m → res ((m ≫= k) w) = Return None →
  ∃ a, res (m w) = Val a ∧ res (k a (final (m w))) = Return None
       ∧ events ((m ≫= k) w) = events (m w) ++ events (k a (final (m w))).
Proof.
  intros Hm. specialize (Hm w). rewrite bind_run.
  destruct (res (m w)) as [a|e|msg]; cbn.
  - intros H. by exists a.
  - intros [= ->]. by destruct Hm.
  - done.
Qed.

Lemma iosQuiet_omap evs :
  Forall iosQuiet evs →
  omap darwinKey evs = [] ∧ omap spawned evs = [] ∧ omap recvd evs = []
  ∧ omap ranCmd evs = [].
Proof.
  intros H. split_and!; apply omap_None; (eapply Forall_impl; [exact H|]);
    by intros ev (? & ? & ? & ?).
Qed.

Lemma deliversAll_frame tempdir targets w e1 e2 e3 :
  Forall iosQuiet e1 → Forall iosQuiet e3 →
  deliversAll tempdir targets (replay w e1) e2 →
  deliversAll tempdir targets w (e1 ++ e2 ++ e3).
Proof.
  intros H1 H3 (Hk & Hs & Hr & Hc).
  assert (Forall (λ ev, darwinKey ev = None) e1) as Hd1
    by (eapply Forall_impl; [exact H1|]; by intros ev [? _]).
  assert (Forall (λ ev, darwinKey ev = None) e3) as Hd3
    by (eapply Forall_impl; [exact H3|]; by intros ev [? _]).
  apply iosQuiet_omap in H1 as (K1 & S1 & R1 & C1).
  apply iosQuiet_omap in H3 as (K3 & S3 & R3 & C3).
  unfold deliversAll.
  rewrite !omap_app, !replies_app, !omap_app, K1, K3, S1, S3, R1, R3, C1, C3.
  rewrite (darwinEnv_none _ _ Hd1), (darwinEnv_none _ _ Hd3), !app_nil_r.
  by cbn [app].
Qed.

Lemma buildsAll_frame flags tempdir archs w e1 e2 e3 :
  omap builtByMain e1 = [] → omap builtByMain e3 = [] →
  buildsAll flags tempdir archs (replay w e1) e2 →
  buildsAll flags tempdir archs w (e1 ++ e2 ++ e3).
Proof.
  intros H1 H3 (pre & loop & post & gomobpath & turns & -> & Hr & Hl & Hok & Hb1 & Hb2).
  exists (e1 ++ pre), loop, (post ++ e3), gomobpath, turns.
  split_and!; [by rewrite <- !app_assoc| |done|done| |].
  - by rewrite replay_app.
  - by rewrite omap_app, H1, Hb1.
  - by rewrite omap_app, H3, Hb2.
Qed.

Lemma addEnv_success targets key mk envs w envs' :
  darwinKey (Called Main mk) = Some key →
  (∀ r, darwinEnv (Reply Main mk r)
        = match r with Ok env => Some env | Err _ => None end) →
  res (addEnv targets key mk envs w) = Val envs' →
  omap darwinKey (events (addEnv targets key mk envs w))
  = filter (λ k, k ∈ targets) [key]
  ∧ envs' = envs ++ omap darwinEnv (replies w (events (addEnv targets key mk envs w)))
  ∧ final (addEnv targets key mk envs w)
    = replay w (events (addEnv targets key mk envs w)).
Proof.
  intros Hk Hr. rewrite addEnv_run, filter_cons, filter_nil.
  case_decide; cbn [res events final].
  2:{ intros [= <-]. by rewrite app_nil_r. }
  destruct ((oracle _ mk w).1) as [env|e] eqn:Ho; cbn [res events final]; [|done].
  intros [= <-]. cbn [omap list_omap replies replay].
  rewrite Hk, Hr, Ho. done.
Qed.

Lemma iosEnvs_success flags targets w envs :
  res (iosEnvs flags targets w) = Val envs →
  omap darwinKey (events (iosEnvs flags targets w))
  = filter (λ k, k ∈ targets) iosKeys
  ∧ omap darwinEnv (replies w (events (iosEnvs flags targets w))) = envs.
Proof.
  unfold iosEnvs. intros H.
  apply bind_Val_inv in H as (e1 & H1 & H & ->).
  apply bind_Val_inv in H as (e2 & H2 & H & ->).
  apply bind_Val_inv in H as (e3 & H3 & H & ->).
  apply addEnv_success in H1 as (K1 & -> & W1); [|done|done].
  apply addEnv_success in H2 as (K2 & -> & W2); [|done|done].
  apply addEnv_success in H3 as (K3 & -> & W3); [|done|done].
  apply addEnv_success in H as (K4 & -> & W4); [|done|done].
  rewrite !omap_app, !replies_app, !omap_app, K1, K2, K3, K4.
  rewrite <- W1, <- W2, <- W3. split; [|by rewrite <- !app_assoc].
  unfold iosKeys. rewrite !filter_cons, !filter_nil.
  repeat case_decide; done.
Qed.

Section Delivering.

Context (tempdir : string) (targets : gset string).

(** A block that looks up no environment, in front of one that ends with the
    look-ups. *)
Lemma lookups_skip {A B} (m : M A) (k : A → M (list B))
    (D : W → list event → list B → Prop) :
  (∀ w e1 e2 b, Forall (λ ev, darwinKey ev = None) e1 →
                D (replay w e1) e2 b → D w (e1 ++ e2) b) →
  only (λ ev, darwinKey ev = None) m → coherent m →
  (∀ a w b, res (k a w) = Val b → D w (events (k a w)) b) →
  ∀ w b, res ((m ≫= k) w) = Val b → D w (events ((m ≫= k) w)) b.
Proof.
  intros HD Hm Hc Hk w b H.
  apply bind_Val_inv in H as (a & Ha & H & ->).
  apply HD; [apply Hm|]. rewrite <- (Hc w). by apply Hk.
Qed.

End Delivering.

Lemma iosPrepare_success flags args tempdir cmdPath pkgs targets w envs :
  res (iosPrepare flags args tempdir cmdPath pkgs targets w) = Val envs →
  let evs := events (iosPrepare flags args tempdir cmdPath pkgs targets w) in
  omap darwinKey evs = filter (λ k, k ∈ targets) iosKeys
  ∧ omap darwinEnv (replies w evs) = envs.
Proof.
  cbv zeta. revert w envs. unfold iosPrepare. cbv zeta.
  repeat (apply (lookups_skip _ _
                   (λ w evs envs,
                      omap darwinKey evs = filter (λ k, k ∈ targets) iosKeys
                      ∧ omap darwinEnv (replies w evs) = envs));
          [ intros w e1 e2 b He1 [Hk Hr];
            rewrite omap_app, replies_app, omap_app,
              (omap_None darwinKey e1 He1), (darwinEnv_none _ _ He1); by split
          | solve [only_run] | solve [coherent_walk] | intros ? ]).
  apply iosEnvs_success.
Qed.

Lemma iosBuild_success flags tempdir mainPath envs w u :
  res (iosBuild flags tempdir mainPath envs w) = Val u →
  let evs := events (iosBuild flags tempdir mainPath envs w) in
  omap spawned evs = envs
  ∧ omap recvd evs ≡ₚ archiveOf tempdir <$> envs
  ∧ length (omap ranCmd evs) = 1%nat.
Proof.
  cbv zeta. unfold iosBuild. cbv zeta. rewrite bind_run.
  destruct (dispatch_run flags mainPath tempdir
              (filepath_Join [tempdir; "IOS-GOPATH"]) [] envs w)
    as (p & Hres & Henv & Hs & Hsp & Hev).
  rewrite Hres. cbn [res]. cbv zeta. cbn [events].
  set (e1 := events (dispatch _ _ _ _ _ _ _)) in *.
  set (w1 := final (dispatch _ _ _ _ _ _ _)) in *.
  assert (Forall plain e1) as Hpl1
    by (eapply Forall_impl; [exact Hev|]; by intros ev [_ ?]).
  apply plain_omap in Hpl1 as [Hc1 Hr1].
  assert (length p = length envs) as Hlen
    by (by rewrite <- (length_fmap envOf p), Henv).
  match goal with
  | |- context [mbind _ (collect _ _ _ _ ?n p ?a)] =>
    pose proof (collect_received flags mainPath tempdir
                  (filepath_Join [tempdir; "IOS-GOPATH"]) n p a w1
                  (Hs (Forall_nil_2 _))) as [Hc2 Hrc];
    pose proof (collect_Val_each_once flags mainPath tempdir
                  (filepath_Join [tempdir; "IOS-GOPATH"]) n p a w1) as Hp;
    pose proof (only_collect (λ ev, spawned ev = None) flags mainPath tempdir
                  (filepath_Join [tempdir; "IOS-GOPATH"]) n p a
                  ltac:(done) ltac:(done) ltac:(done) ltac:(done) ltac:(done) w1)
      as Hs2
  end.
  apply omap_None in Hs2.
  rewrite bind_run.
  destruct (res (collect _ _ _ _ _ _ _ _)) as [archs| |] eqn:Hres'; cbn [res];
    [|done..].
  destruct (Hp archs (Hs (Forall_nil_2 _)) Hlen eq_refl) as (d & -> & Hperm).
  specialize (Hrc _ eq_refl). cbn [app] in Hrc. subst d.
  rewrite Henv in Hperm. cbn [app fmap list_fmap] in Hperm.
  cbn [events]. rewrite bind_run, check_invoke_run.
  match goal with
  | |- context [oracle _ ?c ?w'] => destruct (oracle _ c w') as [[e|] w2]
  end; cbn [fst snd res events final]; [done|].
  match goal with
  | |- context [events (?m w2)] =>
    assert (Forall (λ ev, plain ev ∧ spawned ev = None) (events (m w2))) as Hpl
      by (apply (only_impl (λ ev, plain ev ∧ spawned ev = None)
                   (λ ev, plain ev ∧ spawned ev = None)); [done|];
          only_walk; split; event_facts);
    set (e3 := events (m w2)) in *
  end.
  assert (omap spawned e3 = []) as Hs3
    by (apply omap_None; eapply Forall_impl; [exact Hpl|]; by intros ev [_ ?]).
  assert (Forall plain e3) as Hpl3
    by (eapply Forall_impl; [exact Hpl|]; by intros ev [? _]).
  apply plain_omap in Hpl3 as [Hc3 Hr3].
  intros _. rewrite !omap_app, Hsp, Hs2, Hs3, Hr1, Hr3, Hc1, Hc2, Hc3.
  cbn. rewrite !app_nil_r. by split_and!.
Qed.

Lemma bindIOS_success flags args tempdir cmdPath pkgs targets w u :
  res (bindIOS flags args tempdir cmdPath pkgs targets w) = Val u →
  deliversAll tempdir targets w
    (events (bindIOS flags args tempdir cmdPath pkgs targets w)).
Proof.
  unfold bindIOS. intros H.
  apply bind_Val_inv in H as (envs & Hp & Hb & ->).
  pose proof (only_iosPrepare flags args tempdir cmdPath pkgs targets w) as Hq.
  assert (Forall (λ ev, spawned ev = None)
            (events (iosPrepare flags args tempdir cmdPath pkgs targets w))) as Hsp.
  { generalize w.
    change (only (λ ev, spawned ev = None)
              (iosPrepare flags args tempdir cmdPath pkgs targets)).
    unfold iosPrepare. cbv zeta. only_run. }
  apply omap_None in Hsp.
  assert (Forall plain (events (iosPrepare flags args tempdir cmdPath pkgs targets w)))
    as Hpl by (eapply Forall_impl; [exact Hq|]; by intros ev [_ ?]).
  apply plain_omap in Hpl as [Hc1 Hr1].
  apply iosPrepare_success in Hp as [Hk Hd]. cbv zeta in Hk, Hd.
  apply iosBuild_success in Hb as Hb'. cbv zeta in Hb'.
  destruct Hb' as (Hs2 & Hr2 & Hc2).
  set (e1 := events (iosPrepare flags args tempdir cmdPath pkgs targets w)) in *.
  set (e2 := events (iosBuild _ _ _ _ _)) in *.
  assert (Forall (λ ev, darwinKey ev = None) e2) as Hk2.
  { subst e2.
    match goal with
    | |- Forall _ (events (?m ?w')) =>
      generalize w'; change (only (λ ev, darwinKey ev = None) m)
    end.
    only_deep. }
  unfold deliversAll.
  rewrite !omap_app, replies_app, omap_app, Hk, Hd, Hsp, Hr1, Hc1, Hs2,
    (omap_None darwinKey e2 Hk2), (darwinEnv_none _ _ Hk2), !app_nil_r.
  cbn [app]. by split_and!.
Qed.

Lemma bindAndroid_success flags args tempdir cmdPath pkgs targets w u :
  res (bindAndroid flags args tempdir cmdPath pkgs targets w) = Val u →
  buildsAll flags tempdir (androidArchsOf targets) w
    (events (bindAndroid flags args tempdir cmdPath pkgs targets w)).
Proof.
  destruct u. intros H.
  destruct (bindAndroid_packages flags args tempdir cmdPath pkgs targets w)
    as [Hp Hne]. cbv zeta in Hp, Hne.
  destruct Hp as [Hp|(pre & loop & ev & post & gomobpath & turns & Hev & Hx & Hr
                      & Hl & Hok & Hb1 & Hb2 & Hq)]; [by destruct (Hne H)|].
  exists pre, loop, (ev :: post), gomobpath, turns.
  split_and!; [done..|]. cbn.
  destruct ev as [R who c| |]; cbn in Hx |- *; [|done..].
  rewrite Hb2. by destruct c, who.
Qed.



End BindProperties.

(** ** Runs in the concrete environment *)

(** C1 (witness): the iOS build of [arm] and [arm64], where the compiler
    fails for [arm64], the scheduler hands over the [arm64] message first
    and lets the [arm] goroutine make its two calls only after that.  [Bind]
    returns the error of [arm64]; the [arm] build goes on beside the
    return. *)
Lemma Bind_returns_first_build_error_witness :
  let flags := Demo.flags "ios/arm ios/arm64" in
  let o := Bind (E := Demo.busy ["arm64"]) flags ["app"] [0; 0; 1; 1; 1] in
  let msg := {| arch := "arm64"; path := "/tmp/work/matcha-arm64.a";
                err := Some "build failed for arm64" |} in
  let pre := take 19 (events o) in
  let post := drop 20 (events o) in
  events o = pre ++ Recv msg :: post
  ∧ err msg = Some "build failed for arm64"
  ∧ omap built post
    = [(Goroutine ["GOOS=darwin"; "GOARCH=arm"],
        ["GOOS=darwin"; "GOARCH=arm"; "GOPATH=/tmp/work/IOS-GOPATH:/gopath"])]
  ∧ (res o = Return (Some "build failed for arm64")
     ∧ Forall (calm (E := Demo.busy ["arm64"]) flags) pre
     ∧ (∃ env, Go env ∈ pre ∧ arch msg = Demo.getenv env "GOARCH")
     ∧ ∃ tempdir rest,
         post = rest ++ (if BuildWork flags then []
                         else [Called Main (RemoveAll flags tempdir)])
         ∧ Forall (straggler (E := Demo.busy ["arm64"]) flags tempdir pre) rest).
Proof.
  intros flags o msg pre post.
  assert (events o = pre ++ Recv msg :: post) as H
    by (vm_compute; reflexivity).
  assert (omap built post
          = [(Goroutine ["GOOS=darwin"; "GOARCH=arm"],
              ["GOOS=darwin"; "GOARCH=arm";
               "GOPATH=/tmp/work/IOS-GOPATH:/gopath"])]) as Hb
    by (vm_compute; reflexivity).
  exact (conj H (conj eq_refl (conj Hb
    (Bind_returns_first_build_error (E := Demo.busy ["arm64"])
       flags ["app"] [0; 0; 1; 1; 1] pre msg post
       "build failed for arm64" H eq_refl)))).
Defined.

(** C2 (counterexample): the same two builds, both successful, received in
    the two possible orders: the [lipo] arguments come out in two different
    orders. *)
Lemma lipo_arguments_depend_on_arrival :
  omap ranCmd (events (Bind (E := Demo.env []) (Demo.flags "ios/arm ios/arm64")
                         ["app"] [0]))
  = [ {| Args := ["xcrun"; "lipo"; "-create";
                  "-arch"; "armv7"; "/tmp/work/matcha-arm.a";
                  "-arch"; "arm64"; "/tmp/work/matcha-arm64.a";
                  "-o"; "/tmp/work/matcha-ios/MatchaBridge/MatchaBridge/MatchaBridge.a"] |} ]
  ∧ omap ranCmd (events (Bind (E := Demo.env []) (Demo.flags "ios/arm ios/arm64")
                           ["app"] [1]))
    = [ {| Args := ["xcrun"; "lipo"; "-create";
                    "-arch"; "arm64"; "/tmp/work/matcha-arm64.a";
                    "-arch"; "armv7"; "/tmp/work/matcha-arm.a";
                    "-o"; "/tmp/work/matcha-ios/MatchaBridge/MatchaBridge/MatchaBridge.a"] |} ].
Proof. split; vm_compute; reflexivity. Qed.

(** C9 (counterexample): the target [android] asks for four architectures;
    the compiler fails for [arm], the first of them.  [Bind] started no
    goroutine and made one compiler invocation itself; the other three
    architectures were never built. *)
Lemma android_builds_run_one_after_the_other :
  let o := Bind (E := Demo.env ["arm"]) (Demo.flags "android") ["app"] [] in
  androidArchsOf (ParseTargets "android") = ["arm"; "arm64"; "386"; "amd64"]
  ∧ omap spawned (events o) = []
  ∧ omap built (events o)
    = [(Main, ["GOOS=android"; "GOARCH=arm";
               "GOPATH=/tmp/work/ANDROID-GOPATH:/gopath"])]
  ∧ res o = Return (Some "build failed for arm").
Proof. cbv zeta. split_and!; vm_compute; reflexivity. Qed.

(** C8 (failing input): no package argument, every collaborator succeeds and
    [WriteFile] runs its generator: [Bind] panics on [args[0]] instead of
    building the current directory, for either platform. *)
Lemma Bind_without_arguments_panics :
  res (Bind (E := Demo.env []) (Demo.flags "ios") [] [])
  = Panic "runtime error: index out of range [0] with length 0"
  ∧ res (Bind (E := Demo.env []) (Demo.flags "android") [] [])
    = Panic "runtime error: index out of range [0] with length 0"
  ∧ importPathsOf (E := Demo.env []) [] = ["."].
Proof. split_and!; vm_compute; reflexivity. Qed.

(** *** Runs for the further properties *)

(** The target [ios/arm ios/arm64] asks for two environments. *)
Lemma iosEnvs_one_per_architecture_witness :
  let targets := ParseTargets "ios/arm ios/arm64" in
  let envs := [["GOOS=darwin"; "GOARCH=arm"]; ["GOOS=darwin"; "GOARCH=arm64"]] in
  res (iosEnvs (E := Demo.env []) (Demo.flags "ios/arm ios/arm64") targets [])
  = Val envs
  ∧ (length envs = length (filter (λ k, k ∈ targets) iosKeys)
     ∧ ∀ a, targets = ParseTargets a → "ios" ∈ targets → envs ≠ []).
Proof.
  intros targets envs.
  assert (res (iosEnvs (E := Demo.env []) (Demo.flags "ios/arm ios/arm64")
                 targets []) = Val envs) as H by (vm_compute; reflexivity).
  exact (conj H (iosEnvs_one_per_architecture (E := Demo.env [])
                   (Demo.flags "ios/arm ios/arm64") targets [] envs H)).
Defined.

(** The prelude lets the package [app] through. *)
Lemma prelude_rejects_main_witness :
  let o := prelude (E := Demo.env []) (Demo.flags "ios") ["app"] [] in
  res o = Val ([Demo.package], "/gopath/src/gomatcha.io/matcha/cmd")
  ∧ (Forall (λ pkg, Name pkg ≠ "main") [Demo.package]
     ∧ Forall (λ ev, produces ev = false) (events o)).
Proof.
  intros o.
  assert (res o = Val ([Demo.package], "/gopath/src/gomatcha.io/matcha/cmd"))
    as H by (vm_compute; reflexivity).
  exact (conj H (prelude_rejects_main (E := Demo.env []) (Demo.flags "ios")
                   ["app"] [] [Demo.package]
                   "/gopath/src/gomatcha.io/matcha/cmd" H)).
Defined.

(** A run that panics: it has no package argument. *)
Lemma Bind_panics_only_without_arguments_witness :
  res (Bind (E := Demo.env []) (Demo.flags "android") [] [])
  = Panic "runtime error: index out of range [0] with length 0"
  ∧ @nil string = [].
Proof.
  assert (res (Bind (E := Demo.env []) (Demo.flags "android") [] [])
          = Panic "runtime error: index out of range [0] with length 0") as H
    by (vm_compute; reflexivity).
  exact (conj H (Bind_panics_only_without_arguments (E := Demo.env [])
                   (Demo.flags "android") [] [] _ H)).
Defined.


(** The iOS block for [arm] and [arm64], the [arm64] message received
    first. *)
Lemma lipo_merges_each_build_once_witness :
  let envs := [["GOOS=darwin"; "GOARCH=arm"]; ["GOOS=darwin"; "GOARCH=arm64"]] in
  let cmd :=
    {| Args := ["xcrun"; "lipo"; "-create";
                "-arch"; "arm64"; "/tmp/work/matcha-arm64.a";
                "-arch"; "armv7"; "/tmp/work/matcha-arm.a";
                "-o"; "/tmp/work/matcha-ios/MatchaBridge/MatchaBridge/MatchaBridge.a"] |} in
  cmd ∈ omap ranCmd
          (events (iosBuild (E := Demo.env []) (Demo.flags "ios/arm ios/arm64")
                     "/tmp/work" "/tmp/work/main.go" envs [1]))
  ∧ ∃ archs,
      cmd = lipoCommand (E := Demo.env []) (binaryPathOf (E := Demo.env []) "/tmp/work") archs
      ∧ archs ≡ₚ archiveOf (E := Demo.env []) "/tmp/work" <$> envs.
Proof.
  intros envs cmd.
  assert (cmd ∈ omap ranCmd
            (events (iosBuild (E := Demo.env []) (Demo.flags "ios/arm ios/arm64")
                       "/tmp/work" "/tmp/work/main.go" envs [1]))) as H.
  { replace (omap ranCmd _) with [cmd] by (vm_compute; reflexivity).
    apply list_elem_of_singleton. reflexivity. }
  exact (conj H (lipo_merges_each_build_once (E := Demo.env [])
                   (Demo.flags "ios/arm ios/arm64") "/tmp/work"
                   "/tmp/work/main.go" envs [1] cmd H)).
Defined.

(** The same block under the two schedules. *)
Lemma lipo_commands_differ_in_order_only_witness :
  let envs := [["GOOS=darwin"; "GOARCH=arm"]; ["GOOS=darwin"; "GOARCH=arm64"]] in
  let run w := iosBuild (E := Demo.env []) (Demo.flags "ios/arm ios/arm64")
                 "/tmp/work" "/tmp/work/main.go" envs w in
  let out := "/tmp/work/matcha-ios/MatchaBridge/MatchaBridge/MatchaBridge.a" in
  let cmd :=
    {| Args := ["xcrun"; "lipo"; "-create";
                "-arch"; "armv7"; "/tmp/work/matcha-arm.a";
                "-arch"; "arm64"; "/tmp/work/matcha-arm64.a"; "-o"; out] |} in
  let cmd' :=
    {| Args := ["xcrun"; "lipo"; "-create";
                "-arch"; "arm64"; "/tmp/work/matcha-arm64.a";
                "-arch"; "armv7"; "/tmp/work/matcha-arm.a"; "-o"; out] |} in
  cmd ∈ omap ranCmd (events (run [0]))
  ∧ cmd' ∈ omap ranCmd (events (run [1]))
  ∧ ∃ archs archs',
      Args cmd = ["xcrun"; "lipo"; "-create"] ++ lipoInputs (E := Demo.env []) archs
                 ++ ["-o"; binaryPathOf (E := Demo.env []) "/tmp/work"]
      ∧ Args cmd' = ["xcrun"; "lipo"; "-create"] ++ lipoInputs (E := Demo.env []) archs'
                    ++ ["-o"; binaryPathOf (E := Demo.env []) "/tmp/work"]
      ∧ archs ≡ₚ archs'.
Proof.
  intros envs run out cmd cmd'.
  assert (cmd ∈ omap ranCmd (events (run [0]))) as H.
  { replace (omap ranCmd _) with [cmd] by (vm_compute; reflexivity).
    apply list_elem_of_singleton. reflexivity. }
  assert (cmd' ∈ omap ranCmd (events (run [1]))) as H'.
  { replace (omap ranCmd _) with [cmd'] by (vm_compute; reflexivity).
    apply list_elem_of_singleton. reflexivity. }
  exact (conj H (conj H'
    (lipo_commands_differ_in_order_only (E := Demo.env [])
       (Demo.flags "ios/arm ios/arm64") "/tmp/work" "/tmp/work/main.go" envs
       [0] [1] cmd cmd' H H'))).
Defined.


